(** * git-autoconfig: the git process layer ([src/git/git.ts])

    A shallow embedding of the binary locator ([findGit]), the process
    runner ([exec], [Git._exec], [Git.spawn], [Repository.exec],
    [Repository.config]) and the status parser ([Repository.getStatus]),
    with the properties the specification states about them, and of the
    settings store ([src/config/config.ts]) and the checks of
    [src/extension.ts] that use them.

    Conventions.
    - A JavaScript string is a [string]; one [ascii] stands for one code
      unit (code units above 255 are not represented).
    - The cursor of the status parser is a [nat]. The code of an ['exit']
      event is an [option Z]: a number, or [None] for the [null] a child
      ended by a signal reports.
    - A loop the source writes with [while] is a [Fixpoint] on a fuel
      argument; [None] means the fuel ran out.
    - A promise is modelled by the way it settles. The child process is
      the list of events it emits; the continuation of an [await] runs
      after the event that settles the awaited promise.
    - The environment ([process.env], [options.env]) is a [gmap] from
      names to values; [Object.assign] is a left-biased union taken from
      the last source to the first. *)

From Stdlib Require Import Ascii String ZArith Lia List Bool.
From stdpp Require Import base option list strings gmap fin_maps.

#[local] Arguments String.append : simpl nomatch.

(** ** JavaScript strings *)

Module JsString.

Definition NUL : ascii := Ascii.zero.

(** [s.charAt(i)]: the one-character string at index [i], or the empty
    string when [i] is outside the text. *)
Definition charAt (s : string) (i : nat) : string :=
  match String.get i s with
  | Some c => String c EmptyString
  | None => EmptyString
  end.

(** [s.substring(a, b)]: both indices are clamped to the length and
    swapped when [a > b]. *)
Definition substring (s : string) (a b : nat) : string :=
  let a' := Nat.min a (String.length s) in
  let b' := Nat.min b (String.length s) in
  String.substring (Nat.min a' b') (Nat.max a' b' - Nat.min a' b') s.

(** [s[s.length - 1]]: the last code unit, [None] (JavaScript's
    [undefined]) for the empty string. *)
Definition last_char (s : string) : option ascii :=
  match String.length s with
  | O => None
  | S n => String.get n s
  end.

(** No code unit of [s] is NUL. *)
Fixpoint nul_free (s : string) : bool :=
  match s with
  | EmptyString => true
  | String c s' => negb (Ascii.eqb c NUL) && nul_free s'
  end.

(** [/needle/.test(hay)] for a pattern without metacharacters. *)
Fixpoint contains (needle hay : string) : bool :=
  String.prefix needle hay ||
  match hay with
  | EmptyString => false
  | String _ hay' => contains needle hay'
  end.

End JsString.
Import JsString.

(** ** The status parser: [Repository.getStatus] *)

Record IFileStatus := {
  fs_x : string;
  fs_y : string;
  fs_path : string;
  fs_rename : option string
}.

(** The [while] loop of [readName]: advance the cursor until the code unit
    under it is NUL. Past the end of the text [charAt] yields the empty
    string, which is not NUL, so the loop goes on. (In JavaScript the
    cursor stops growing at 2^53, and the loop still goes on.) *)
Fixpoint readName_scan (fuel : nat) (status : string) (i : nat) : option nat :=
  match fuel with
  | O => None
  | S fuel' =>
      if String.eqb (charAt status i) (String NUL EmptyString)
      then Some i
      else readName_scan fuel' status (S i)
  end.

(** [readName()]: the field from the cursor up to the next NUL, and the
    cursor moved past that NUL. *)
Definition readName (fuel : nat) (status : string) (i : nat)
  : option (string * nat) :=
  match readName_scan fuel status i with
  | Some j => Some (substring status i j, S j)
  | None => None
  end.

(** [current.path[current.path.length - 1] === '/']. *)
Definition ends_with_slash (path : string) : bool :=
  match last_char path with
  | Some c => Ascii.eqb c "/"%char
  | None => false
  end.

(** One pass through the body of the outer [while]: the entry to push
    ([None] when the record is skipped by [continue]) and the new cursor. *)
Definition getStatus_body (fuel : nat) (status : string) (i : nat)
  : option (option IFileStatus * nat) :=
  let x := charAt status i in
  let y := charAt status (i + 1) in
  let i := i + 3 in
  match
    (if String.eqb x "R"
     then match readName fuel status i with
          | Some (n, i') => Some (Some n, i')
          | None => None
          end
     else Some (None, i))
  with
  | None => None
  | Some (rename, i) =>
      match readName fuel status i with
      | None => None
      | Some (path, i) =>
          if ends_with_slash path
          then Some (None, i)
          else Some (Some {| fs_x := x; fs_y := y;
                             fs_path := path; fs_rename := rename |}, i)
      end
  end.

(** [while (i < status.length) { ... }], with [result] the array built so
    far. *)
Fixpoint getStatus_loop (fuel : nat) (status : string) (i : nat)
    (result : list IFileStatus) : option (list IFileStatus) :=
  match fuel with
  | O => None
  | S fuel' =>
      if (i <? String.length status)%nat
      then match getStatus_body fuel' status i with
           | None => None
           | Some (Some current, i') =>
               getStatus_loop fuel' status i' (result ++ [current])
           | Some (None, i') =>
               getStatus_loop fuel' status i' result
           end
      else Some result
  end.

(** [getStatus] on the standard output of [git status -z -u]. *)
Definition getStatus (fuel : nat) (status : string)
  : option (list IFileStatus) :=
  getStatus_loop fuel status 0 [].

(** ** JavaScript values *)

(** The values that reach this layer through parameters typed [any]. A
    number is an integer or NaN; every other number is truthy like a
    non-zero integer. *)
Inductive jsval :=
  | JUndefined
  | JNull
  | JBool (b : bool)
  | JNum (n : Z)
  | JNaN
  | JStr (s : string).

(** ToBoolean, as [if (v)] and [v || w] apply it. *)
Definition truthy (v : jsval) : bool :=
  match v with
  | JUndefined | JNull | JNaN => false
  | JBool b => b
  | JNum n => negb (n =? 0)%Z
  | JStr s => negb (String.eqb s "")
  end.

(** [args[0]]: [undefined] for the empty array. *)
Definition first_arg (args : list jsval) : jsval :=
  match args with
  | [] => JUndefined
  | a :: _ => a
  end.

(** [Object.assign(target, ...sources)]: each source in turn overwrites
    the keys it has. *)
Definition Object_assign (target : gmap string jsval)
    (sources : list (gmap string jsval)) : gmap string jsval :=
  foldl (fun acc src => src ∪ acc) target sources.

(** ** Results and errors *)

(** [if (code)] on the code of an ['exit'] event: 0 and [null] are
    falsy. *)
Definition code_truthy (code : option Z) : bool :=
  match code with
  | Some n => negb (n =? 0)%Z
  | None => false
  end.

(** [exitCode] is what the ['exit'] event carried: the declared type is
    [number], the value is [null] after a signal. *)
Record IExecutionResult := {
  exitCode : option Z;
  stdout : string;
  stderr : string
}.

Inductive GitErrorCodes :=
  | BadConfigFile | AuthenticationFailed | NoUserNameConfigured
  | NoUserEmailConfigured | NoRemoteRepositorySpecified | NotAGitRepository
  | NotAtRepositoryRoot | Conflict | UnmergedChanges | PushRejected
  | RemoteConnectionError | DirtyWorkTree | CantOpenResource | GitNotFound
  | CantCreatePipe | CantAccessRemote | RepositoryNotFound.

Record IGitErrorData := {
  d_error : option string;         (* an [Error], by its message *)
  d_message : option string;
  d_stdout : option string;
  d_stderr : option string;
  d_exitCode : option Z;
  d_gitErrorCode : option GitErrorCodes;
  d_gitCommand : jsval
}.

Record GitError := {
  ge_error : option string;
  ge_message : string;
  ge_stdout : option string;
  ge_stderr : option string;
  ge_exitCode : option Z;
  ge_gitErrorCode : option GitErrorCodes;
  ge_gitCommand : jsval
}.

(** [s || t] on strings. *)
Definition str_or (s t : string) : string :=
  if String.eqb s "" then t else s.

(** [new GitError(data)]. *)
Definition GitError_new (data : IGitErrorData) : GitError :=
  let message := match d_error data with Some m => m | None => "" end in
  {| ge_error := d_error data;
     ge_message :=
       str_or message
         (str_or (match d_message data with Some m => m | None => "" end)
                 "Git error");
     ge_stdout := d_stdout data;
     ge_stderr := d_stderr data;
     ge_exitCode := d_exitCode data;
     ge_gitErrorCode := d_gitErrorCode data;
     ge_gitCommand := d_gitCommand data |}.

(** What a promise of this layer is rejected with. *)
Inductive rejection :=
  | RejNull                          (* [Promise.reject(null)] *)
  | RejString (s : string)           (* a bare string, as ['Not found'] *)
  | RejError (message : string)      (* an [Error] that is not a [GitError] *)
  | RejGitError (e : GitError).


(** How an asynchronous call ends; [Pending] when the events it waits for
    never all arrive. *)
Inductive outcome (A : Type) :=
  | Resolved (a : A)
  | Rejected (r : rejection)
  | Pending.
Arguments Resolved {A} a.
Arguments Rejected {A} r.
Arguments Pending {A}.

(** ** The three-way join: [exec(child)] *)

Inductive emitter := Child | ChildStdout | ChildStderr.

(** What the child process and its two streams emit. The code of ['exit']
    is [None] ([null]) when a signal ended the child. A ['data'] event
    carries a chunk [b], given here as the string [buffers.join('')] makes
    of it: each chunk is turned into text on its own. *)
Inductive event :=
  | ChildError (err : string)     (* [child.emit('error', err)] *)
  | ChildExit (code : option Z)   (* [child.emit('exit', code)] *)
  | StdoutData (b : string)
  | StdoutClose
  | StderrData (b : string)
  | StderrClose.

Definition event_emitter (ev : event) : emitter :=
  match ev with
  | ChildError _ | ChildExit _ => Child
  | StdoutData _ | StdoutClose => ChildStdout
  | StderrData _ | StderrClose => ChildStderr
  end.

Definition event_name (ev : event) : string :=
  match ev with
  | ChildError _ => "error"
  | ChildExit _ => "exit"
  | StdoutData _ | StderrData _ => "data"
  | StdoutClose | StderrClose => "close"
  end.

(** The six closures one call of [exec] hands to [once] and [on]. *)
Inductive callback :=
  | RejectExit | ResolveExit
  | PushStdout | ResolveStdout
  | PushStderr | ResolveStderr.

(** A listener function: a closure of the call of [exec] numbered [call],
    or a function of some other code. *)
Inductive fn :=
  | Closure (call : nat) (cb : callback)
  | External (id : nat).

Record listener := {
  l_emitter : emitter;
  l_name : string;
  l_fn : fn;
  l_once : bool
}.

#[global] Instance emitter_eq_dec : EqDecision emitter.
Proof. solve_decision. Defined.
#[global] Instance callback_eq_dec : EqDecision callback.
Proof. solve_decision. Defined.
#[global] Instance fn_eq_dec : EqDecision fn.
Proof. solve_decision. Defined.

Inductive promise (A : Type) :=
  | Waiting
  | Fulfilled (a : A)
  | Broken (err : string).
Arguments Waiting {A}.
Arguments Fulfilled {A} a.
Arguments Broken {A} err.

(** Settling a promise that is already settled does nothing. *)
Definition resolve {A} (a : A) (p : promise A) : promise A :=
  match p with Waiting => Fulfilled a | _ => p end.
Definition reject {A} (err : string) (p : promise A) : promise A :=
  match p with Waiting => Broken err | _ => p end.

Record exec_state := {
  es_listeners : list listener;
  es_disposables : list (emitter * string * fn);
  es_exit : promise (option Z);
  es_stdout : promise string;
  es_stderr : promise string;
  es_bufout : list string;
  es_buferr : list string;
  es_done : option (string + IExecutionResult)
}.

Definition same_target (ee : emitter) (name : string) (l : listener) : bool :=
  bool_decide (l_emitter l = ee) && String.eqb (l_name l) name.

Definition same_listener (ee : emitter) (name : string) (f : fn)
    (l : listener) : bool :=
  same_target ee name l && bool_decide (l_fn l = f).

(** Drop the first listener that [p] accepts. *)
Fixpoint remove_first (p : listener -> bool) (ls : list listener)
  : list listener :=
  match ls with
  | [] => []
  | l :: ls' => if p l then ls' else l :: remove_first p ls'
  end.

(** [ee.removeListener(name, f)]: the most recently added listener of
    [name] on [ee] whose function is [f] goes, if there is one. *)
Definition removeListener (ee : emitter) (name : string) (f : fn)
    (ls : list listener) : list listener :=
  rev (remove_first (same_listener ee name f) (rev ls)).

(** [once] and [on] of [exec]: register, and remember how to deregister. *)
Definition register (once : bool) (ee : emitter) (name : string) (f : fn)
    (st : exec_state) : exec_state :=
  {| es_listeners := es_listeners st ++
       [{| l_emitter := ee; l_name := name; l_fn := f; l_once := once |}];
     es_disposables := es_disposables st ++ [(ee, name, f)];
     es_exit := es_exit st; es_stdout := es_stdout st;
     es_stderr := es_stderr st;
     es_bufout := es_bufout st; es_buferr := es_buferr st;
     es_done := es_done st |}.

(** The state in which [exec] suspends at its [await]: the three promise
    executors have run, in order, on top of the listeners [ls0] already
    attached. *)
Definition exec_start (call : nat) (ls0 : list listener) : exec_state :=
  let st :=
    {| es_listeners := ls0; es_disposables := [];
       es_exit := Waiting; es_stdout := Waiting; es_stderr := Waiting;
       es_bufout := []; es_buferr := []; es_done := None |} in
  let st := register true Child "error" (Closure call RejectExit) st in
  let st := register true Child "exit" (Closure call ResolveExit) st in
  let st := register false ChildStdout "data" (Closure call PushStdout) st in
  let st := register true ChildStdout "close" (Closure call ResolveStdout) st in
  let st := register false ChildStderr "data" (Closure call PushStderr) st in
  register true ChildStderr "close" (Closure call ResolveStderr) st.

#[local] Arguments exec_start : simpl never.

Definition join (bs : list string) : string := String.concat "" bs.

(** Calling one listener function with the event's argument. Closures of
    other calls and functions of other code leave this call's state
    alone. *)
Definition call_fn (call : nat) (f : fn) (ev : event) (st : exec_state)
  : exec_state :=
  match f with
  | External _ => st
  | Closure c cb =>
      if negb (c =? call)%nat then st else
      match cb, ev with
      | RejectExit, ChildError err =>
          {| es_listeners := es_listeners st;
             es_disposables := es_disposables st;
             es_exit := reject err (es_exit st);
             es_stdout := es_stdout st; es_stderr := es_stderr st;
             es_bufout := es_bufout st; es_buferr := es_buferr st;
             es_done := es_done st |}
      | ResolveExit, ChildExit code =>
          {| es_listeners := es_listeners st;
             es_disposables := es_disposables st;
             es_exit := resolve code (es_exit st);
             es_stdout := es_stdout st; es_stderr := es_stderr st;
             es_bufout := es_bufout st; es_buferr := es_buferr st;
             es_done := es_done st |}
      | PushStdout, StdoutData b =>
          {| es_listeners := es_listeners st;
             es_disposables := es_disposables st;
             es_exit := es_exit st;
             es_stdout := es_stdout st; es_stderr := es_stderr st;
             es_bufout := es_bufout st ++ [b]; es_buferr := es_buferr st;
             es_done := es_done st |}
      | ResolveStdout, StdoutClose =>
          {| es_listeners := es_listeners st;
             es_disposables := es_disposables st;
             es_exit := es_exit st;
             es_stdout := resolve (join (es_bufout st)) (es_stdout st);
             es_stderr := es_stderr st;
             es_bufout := es_bufout st; es_buferr := es_buferr st;
             es_done := es_done st |}
      | PushStderr, StderrData b =>
          {| es_listeners := es_listeners st;
             es_disposables := es_disposables st;
             es_exit := es_exit st;
             es_stdout := es_stdout st; es_stderr := es_stderr st;
             es_bufout := es_bufout st; es_buferr := es_buferr st ++ [b];
             es_done := es_done st |}
      | ResolveStderr, StderrClose =>
          {| es_listeners := es_listeners st;
             es_disposables := es_disposables st;
             es_exit := es_exit st;
             es_stdout := es_stdout st;
             es_stderr := resolve (join (es_buferr st)) (es_stderr st);
             es_bufout := es_bufout st; es_buferr := es_buferr st;
             es_done := es_done st |}
      | _, _ => st
      end
  end.

Definition with_listeners (ls : list listener) (st : exec_state)
  : exec_state :=
  {| es_listeners := ls; es_disposables := es_disposables st;
     es_exit := es_exit st; es_stdout := es_stdout st;
     es_stderr := es_stderr st;
     es_bufout := es_bufout st; es_buferr := es_buferr st;
     es_done := es_done st |}.

(** [ee.emit(name, arg)]: the listeners of [name] on [ee] are called in
    the order they were added; one added with [once] is detached before it
    is called. *)
Definition emit (call : nat) (ev : event) (st : exec_state) : exec_state :=
  let hit l := same_target (event_emitter ev) (event_name ev) l in
  let fired := List.filter hit (es_listeners st) in
  let kept :=
    List.filter (fun l => negb (hit l && l_once l)) (es_listeners st) in
  foldl (fun st' l => call_fn call (l_fn l) ev st') (with_listeners kept st)
        fired.

(** [dispose(disposables)]. *)
Definition dispose (ds : list (emitter * string * fn))
    (ls : list listener) : list listener :=
  foldl (fun ls' d => match d with
                      | (ee, name, f) => removeListener ee name f ls'
                      end) ls ds.

Definition finish (r : string + IExecutionResult) (ls : list listener)
    (st : exec_state) : exec_state :=
  {| es_listeners := ls; es_disposables := es_disposables st;
     es_exit := es_exit st; es_stdout := es_stdout st;
     es_stderr := es_stderr st;
     es_bufout := es_bufout st; es_buferr := es_buferr st;
     es_done := Some r |}.

(** What follows the [await Promise.all([...])] once the join has settled:
    when all three promises are fulfilled, [dispose(disposables)] and the
    [return]; when the first one is rejected the [await] throws and [exec]
    is left at once. *)
Definition resume (st : exec_state) : exec_state :=
  match es_done st with
  | Some _ => st
  | None =>
      match es_exit st, es_stdout st, es_stderr st with
      | Broken err, _, _ => finish (inl err) (es_listeners st) st
      | Fulfilled code, Fulfilled out, Fulfilled err =>
          finish (inr {| exitCode := code; stdout := out; stderr := err |})
                 (dispose (es_disposables st) (es_listeners st)) st
      | _, _, _ => st
      end
  end.

(** [exec(child)] for the call numbered [call], with [ls0] the listeners
    already on the child and its streams, against the events [trace] the
    child emits afterwards. *)
Definition exec (call : nat) (ls0 : list listener) (trace : list event)
  : exec_state :=
  foldl (fun st ev => resume (emit call ev st)) (exec_start call ls0) trace.

Definition exec_outcome (st : exec_state) : outcome IExecutionResult :=
  match es_done st with
  | None => Pending
  | Some (inl err) => Rejected (RejError err)
  | Some (inr r) => Resolved r
  end.

(** The function of [l] is a closure of the call [call]. *)
Definition owned_by (call : nat) (l : listener) : bool :=
  match l_fn l with
  | Closure c _ => (c =? call)%nat
  | External _ => false
  end.

(** The listeners among [ls] that the call [call] registered. *)
Definition own_listeners (call : nat) (ls : list listener) : list listener :=
  List.filter (owned_by call) ls.

(** The two ['data'] listeners the call [call] attaches with [on]. *)
Definition stdout_data_listener (call : nat) : listener :=
  {| l_emitter := ChildStdout; l_name := "data";
     l_fn := Closure call PushStdout; l_once := false |}.

Definition stderr_data_listener (call : nat) : listener :=
  {| l_emitter := ChildStderr; l_name := "data";
     l_fn := Closure call PushStderr; l_once := false |}.

(** The closure [exec] registers for each kind of event. *)
Definition handler_of (ev : event) : callback :=
  match ev with
  | ChildError _ => RejectExit
  | ChildExit _ => ResolveExit
  | StdoutData _ => PushStdout
  | StdoutClose => ResolveStdout
  | StderrData _ => PushStderr
  | StderrClose => ResolveStderr
  end.

Definition registration_of (call : nat) (ev : event)
  : emitter * string * fn :=
  (event_emitter ev, event_name ev, Closure call (handler_of ev)).

(** What the call's own closure for [ev] does when it is called. *)
Definition effect (call : nat) (ev : event) (st : exec_state) : exec_state :=
  call_fn call (Closure call (handler_of ev)) ev st.

(** The state after [emit] has detached the [once] listeners of [ev] and
    before it calls anything. *)
Definition kept_listeners (ev : event) (st : exec_state) : exec_state :=
  with_listeners
    (List.filter
       (fun l => negb (same_target (event_emitter ev) (event_name ev) l
                       && l_once l))
       (es_listeners st)) st.

(** The four listeners the call attaches with [once]. *)
Definition error_listener (call : nat) : listener :=
  {| l_emitter := Child; l_name := "error";
     l_fn := Closure call RejectExit; l_once := true |}.

Definition exit_listener (call : nat) : listener :=
  {| l_emitter := Child; l_name := "exit";
     l_fn := Closure call ResolveExit; l_once := true |}.

Definition stdout_close_listener (call : nat) : listener :=
  {| l_emitter := ChildStdout; l_name := "close";
     l_fn := Closure call ResolveStdout; l_once := true |}.

Definition stderr_close_listener (call : nat) : listener :=
  {| l_emitter := ChildStderr; l_name := "close";
     l_fn := Closure call ResolveStderr; l_once := true |}.

(** ** What a trace says the child did *)

(** The first of ['error'] and ['exit'] the child emits. *)
Fixpoint first_exit (trace : list event)
  : option (string + option Z) :=
  match trace with
  | [] => None
  | ChildError err :: _ => Some (inl err)
  | ChildExit code :: _ => Some (inr code)
  | _ :: trace' => first_exit trace'
  end.

Fixpoint stdout_closed (trace : list event) : bool :=
  match trace with
  | [] => false
  | StdoutClose :: _ => true
  | _ :: trace' => stdout_closed trace'
  end.

(** The chunks written to stdout until it closes. *)
Fixpoint stdout_chunks (trace : list event) : list string :=
  match trace with
  | [] => []
  | StdoutClose :: _ => []
  | StdoutData b :: trace' => b :: stdout_chunks trace'
  | _ :: trace' => stdout_chunks trace'
  end.

Fixpoint stderr_closed (trace : list event) : bool :=
  match trace with
  | [] => false
  | StderrClose :: _ => true
  | _ :: trace' => stderr_closed trace'
  end.

(** The chunks written to stderr until it closes. *)
Fixpoint stderr_chunks (trace : list event) : list string :=
  match trace with
  | [] => []
  | StderrClose :: _ => []
  | StderrData b :: trace' => b :: stderr_chunks trace'
  | _ :: trace' => stderr_chunks trace'
  end.

(** The promise and the buffer of one output stream against the events
    seen so far. *)
Definition stream_tracked (closed : bool) (chunks : list string)
    (p : promise string) (buffer : list string) (attached : Prop) : Prop :=
  if closed
  then p = Fulfilled (join chunks)
  else p = Waiting /\ buffer = chunks /\ attached.

(** The three promises of a suspended [exec] against the events [seen] so
    far. *)
Definition tracking (call : nat) (seen : list event) (st : exec_state)
  : Prop :=
  match first_exit seen with
  | None => es_exit st = Waiting /\
            In (error_listener call) (es_listeners st) /\
            In (exit_listener call) (es_listeners st)
  | Some (inl err) => es_exit st = Broken err
  | Some (inr code) => es_exit st = Fulfilled code
  end /\
  stream_tracked (stdout_closed seen) (stdout_chunks seen)
    (es_stdout st) (es_bufout st)
    (In (stdout_close_listener call) (es_listeners st)) /\
  stream_tracked (stderr_closed seen) (stderr_chunks seen)
    (es_stderr st) (es_buferr st)
    (In (stderr_close_listener call) (es_listeners st)).

(** The result [exec] has returned against the events seen. *)
Definition result_of_trace (seen : list event) (r : IExecutionResult)
  : Prop :=
  first_exit seen = Some (inr (exitCode r)) /\
  stdout_closed seen = true /\
  stdout r = join (stdout_chunks seen) /\
  stderr_closed seen = true /\
  stderr r = join (stderr_chunks seen).

Definition results_tracked (call : nat) (seen : list event)
    (st : exec_state) : Prop :=
  match es_done st with
  | None => tracking call seen st
  | Some (inr r) => result_of_trace seen r
  | Some (inl _) => True
  end.

(** What [removeListener] compares a listener with. *)
Definition matches (d : emitter * string * fn) (l : listener) : bool :=
  match d with
  | (ee, name, f) => same_listener ee name f l
  end.

Definition count_matching (d : emitter * string * fn) (ls : list listener)
  : nat :=
  length (List.filter (matches d) ls).

(** The listeners of the call [call] among [ls] are each one of the
    registrations [ds], and no registration is attached twice. *)
Definition tidy (call : nat) (ds : list (emitter * string * fn))
    (ls : list listener) : Prop :=
  (forall d, In d ds -> count_matching d ls <= 1) /\
  (forall l, In l ls -> owned_by call l = true ->
             exists d, In d ds /\ matches d l = true).

(** While [exec] is suspended its own listeners are tidy; once it has
    returned a result none of them is attached. *)
Definition listeners_scoped (call : nat) (ls0 : list listener)
    (st : exec_state) : Prop :=
  es_disposables st = es_disposables (exec_start call ls0) /\
  match es_done st with
  | None => tidy call (es_disposables st) (es_listeners st)
  | Some (inr _) => own_listeners call (es_listeners st) = []
  | Some (inl _) => True
  end.

(** Until [exec] has returned, the two ['data'] listeners stay. *)
Definition data_listeners_attached (call : nat) (st : exec_state) : Prop :=
  match es_done st with
  | Some (inr _) => True
  | _ => In (stdout_data_listener call) (es_listeners st) /\
         In (stderr_data_listener call) (es_listeners st)
  end.

(** ** The process runner: [Git] and [Repository] *)

(** What [options.stdio] says of one stream of the child. *)
Inductive stdio_entry :=
  | StdioPipe                     (* ['pipe'] *)
  | StdioIgnore                   (* ['ignore'] *)
  | StdioInherit                  (* ['inherit'] *)
  | StdioDescriptor (fd : Z).     (* a file descriptor of the parent *)

(** [options.stdio]: one word for the three streams, or an array with an
    entry for each, where [None] is a [null] or [undefined] entry. *)
Inductive stdio :=
  | StdioWord (w : stdio_entry)
  | StdioArray (entries : list (option stdio_entry)).

(** The recognised fields of the [options] object. The output channel
    ([log]) is not modelled: nothing below observes it. *)
Record options := {
  o_cwd : option string;
  o_env : option (gmap string jsval);
  o_input : option string;
  o_stdio : option stdio
}.

Definition no_options : options :=
  {| o_cwd := None; o_env := None; o_input := None; o_stdio := None |}.

Record Git := {
  gitPath : string;
  git_version : string
}.

(** What [cp.spawn(file, args, options)] is called with. *)
Record spawn_request := {
  sp_file : string;
  sp_args : list jsval;
  sp_options : options
}.

Definition VSCODE_GIT_COMMAND : string := "VSCODE_GIT_COMMAND".
Definition LANG : string := "LANG".

(** The object literal [{ VSCODE_GIT_COMMAND: args[0], LANG: 'en_US.UTF-8' }]. *)
Definition fixed_env (args : list jsval) : gmap string jsval :=
  <[LANG := JStr "en_US.UTF-8"]>
    (<[VSCODE_GIT_COMMAND := first_arg args]> ∅).

(** [options.env || {}]. *)
Definition env_or_empty (e : option (gmap string jsval))
  : gmap string jsval :=
  match e with Some m => m | None => ∅ end.

(** [Object.assign({}, process.env, options.env || {}, {...})] of
    [Git.spawn]. *)
Definition spawn_env (process_env : gmap string string)
    (caller : option (gmap string jsval)) (args : list jsval)
  : gmap string jsval :=
  Object_assign ∅ [JStr <$> process_env; env_or_empty caller; fixed_env args].

Definition input_given (o : options) : bool :=
  match o_input o with
  | Some i => negb (String.eqb i "")
  | None => false
  end.

(** [options.stdio] after
    [if (!options.stdio && !options.input) options.stdio = ['ignore', null, null]]. *)
Definition spawn_stdio (o : options) : option stdio :=
  match o_stdio o with
  | None => if input_given o then None
            else Some (StdioArray [Some StdioIgnore; None; None])
  | Some io => Some io
  end.

(** [Git.spawn(args, options)]: the request handed to [cp.spawn], or the
    message of the [Error] thrown when no binary is known. *)
Definition Git_spawn (git : Git) (process_env : gmap string string)
    (args : list jsval) (o : options) : string + spawn_request :=
  if String.eqb (gitPath git) ""
  then inl "git could not be found in the system."
  else
    let stdio := spawn_stdio o in
    inr {| sp_file := gitPath git;
           sp_args := args;
           sp_options :=
             {| o_cwd := o_cwd o;
                o_env := Some (spawn_env process_env (o_env o) args);
                o_input := o_input o;
                o_stdio := stdio |} |}.

(** The [if / else if] chain of [_exec] over the captured stderr. *)
Definition classify (stderr : string) : option GitErrorCodes :=
  if contains "Authentication failed" stderr
  then Some AuthenticationFailed
  else if contains "Not a git repository" stderr
  then Some NotAGitRepository
  else if contains "bad config file" stderr
  then Some BadConfigFile
  else if contains "cannot make pipe for command substitution" stderr
          || contains "cannot create standard input pipe" stderr
  then Some CantCreatePipe
  else if contains "Repository not found" stderr
  then Some RepositoryNotFound
  else if contains "unable to access" stderr
  then Some CantAccessRemote
  else None.

(** The part of [_exec] after [await exec(child)] has produced [result].
    [if (result.exitCode)] lets the code [null] of a child ended by a
    signal through, like the code 0. In the branch taken, the exit code
    handed to [GitError] is a number. *)
Definition check_result (args : list jsval) (result : IExecutionResult)
  : outcome IExecutionResult :=
  if code_truthy (exitCode result)
  then
    let gitErrorCode := classify (stderr result) in
    Rejected (RejGitError (GitError_new
      {| d_error := None;
         d_message := Some "Failed to execute git";
         d_stdout := Some (stdout result);
         d_stderr := Some (stderr result);
         d_exitCode := exitCode result;
         d_gitErrorCode := gitErrorCode;
         d_gitCommand := first_arg args |}))
  else Resolved result.

(** Which of [child.stdin] (0), [child.stdout] (1) and [child.stderr] (2)
    the child [cp.spawn] returns has: a stream where the entry of
    [options.stdio] is ['pipe'] or is left to the default, [null]
    elsewhere. *)
Definition stream_piped (io : option stdio) (fd : nat) : bool :=
  let is_pipe w := match w with StdioPipe => true | _ => false end in
  match io with
  | None => true
  | Some (StdioWord w) => is_pipe w
  | Some (StdioArray entries) =>
      match entries !! fd with
      | Some (Some w) => is_pipe w
      | _ => true
      end
  end.

(** The message of the [TypeError] a call of the method [name] on [null]
    throws. *)
Definition null_call (name : string) : string :=
  String.append "Cannot read property '" (String.append name "' of null").

(** [exec(child)] on the child spawned with [io]. Where [child.stdout] or
    [child.stderr] is [null], the executor of the second or third promise
    throws at [ee.on], so that promise is rejected as it is made and the
    join with it, whatever the child emits. *)
Definition exec_child (io : option stdio)
    (call : nat) (ls0 : list listener) (trace : list event)
  : outcome IExecutionResult :=
  if stream_piped io 1 && stream_piped io 2
  then exec_outcome (exec call ls0 trace)
  else Rejected (RejError (null_call "on")).

(** [Git._exec(args, options)]. The child spawned for the request emits
    [trace]. An exception of [spawn], of [child.stdin.end] on a child
    whose stdin is [null], or of the awaited [exec] rejects the promise
    of the [async] function with that very exception. *)
Definition Git__exec (git : Git) (process_env : gmap string string)
    (args : list jsval) (o : options)
    (call : nat) (ls0 : list listener) (trace : list event)
  : outcome IExecutionResult :=
  match Git_spawn git process_env args o with
  | inl message => Rejected (RejError message)
  | inr request =>
      let io := o_stdio (sp_options request) in
      if input_given o && negb (stream_piped io 0)
      then Rejected (RejError (null_call "end"))
      else
        match exec_child io call ls0 trace with
        | Resolved result => check_result args result
        | Rejected r => Rejected r
        | Pending => Pending
        end
  end.

(** The streams [_exec] needs are there: stdout and stderr, and stdin when
    there is input to write. *)
Definition streams_ready (o : options) : bool :=
  let io := spawn_stdio o in
  (negb (input_given o) || stream_piped io 0)
  && stream_piped io 1 && stream_piped io 2.

(** [Object.assign({ cwd }, options || {})] of [Git.exec]. *)
Definition with_cwd (cwd : string) (o : options) : options :=
  {| o_cwd := match o_cwd o with Some c => Some c | None => Some cwd end;
     o_env := o_env o; o_input := o_input o; o_stdio := o_stdio o |}.

Definition Git_exec (git : Git) (process_env : gmap string string)
    (cwd : string) (args : list jsval) (o : options)
    (call : nat) (ls0 : list listener) (trace : list event)
  : outcome IExecutionResult :=
  Git__exec git process_env args (with_cwd cwd o) call ls0 trace.

Record Repository := {
  repo_git : Git;
  repositoryRoot : string;
  repo_env : gmap string jsval
}.

(** The two assignments to [options.env] in [Repository.exec]. *)
Definition repository_options (repo : Repository) (o : options) : options :=
  {| o_cwd := o_cwd o;
     o_env := Some (Object_assign
                      (Object_assign ∅ [env_or_empty (o_env o)])
                      [repo_env repo]);
     o_input := o_input o; o_stdio := o_stdio o |}.

Definition Repository_exec (repo : Repository)
    (process_env : gmap string string) (args : list jsval) (o : options)
    (call : nat) (ls0 : list listener) (trace : list event)
  : outcome IExecutionResult :=
  Git_exec (repo_git repo) process_env (repositoryRoot repo) args
           (repository_options repo o) call ls0 trace.

(** The request [Repository.exec] ends up handing to [cp.spawn]. *)
Definition Repository_request (repo : Repository)
    (process_env : gmap string string) (args : list jsval) (o : options)
  : string + spawn_request :=
  Git_spawn (repo_git repo) process_env args
            (with_cwd (repositoryRoot repo) (repository_options repo o)).

(** The argument array [Repository.config] builds. *)
Definition config_args (scope key : string) (value : jsval) : list jsval :=
  let args := [JStr "config"] in
  let args := if truthy (JStr scope)
              then (args ++ [JStr (String.append "--" scope)])%list else args in
  let args := (args ++ [JStr key])%list in
  if truthy value then (args ++ [value])%list else args.

(** The argument array [Repository.configGet] builds. *)
Definition configGet_args (scope key : string) : list jsval :=
  let args := [JStr "config"] in
  let args := if truthy (JStr scope)
              then (args ++ [JStr (String.append "--" scope)])%list else args in
  let args := (args ++ [JStr "--get"])%list in
  (args ++ [JStr key])%list.

(** [Repository.config(scope, key, value, options)]: the standard output
    of the invocation. *)
Definition Repository_config (repo : Repository)
    (process_env : gmap string string) (scope key : string) (value : jsval)
    (o : options) (call : nat) (ls0 : list listener) (trace : list event)
  : outcome string :=
  match Repository_exec repo process_env (config_args scope key value) o
                        call ls0 trace with
  | Resolved result => Resolved (stdout result)
  | Rejected r => Rejected r
  | Pending => Pending
  end.

(** ** The binary locator: [findGit] *)

Record IGit := {
  ig_path : string;
  ig_version : string
}.

(** The white space of [String.prototype.trim] and of the pattern [\s],
    among the code units represented here. *)
Definition is_space (c : ascii) : bool :=
  match nat_of_ascii c with
  | 9 | 10 | 11 | 12 | 13 | 32 | 160 => true
  | _ => false
  end.

Fixpoint trim_start (s : string) : string :=
  match s with
  | EmptyString => EmptyString
  | String c s' => if is_space c then trim_start s' else s
  end.

Fixpoint trim_end (s : string) : string :=
  match s with
  | EmptyString => EmptyString
  | String c s' =>
      match trim_end s' with
      | EmptyString => if is_space c then EmptyString else String c EmptyString
      | t => String c t
      end
  end.

(** [s.trim()], and [s.replace(/^\s+|\s+$/g, '')]. *)
Definition trim (s : string) : string := trim_end (trim_start s).

(** [raw.replace(/^git version /, '')]. *)
Definition parseVersion (raw : string) : string :=
  let label := "git version " in
  if String.prefix label raw
  then String.substring (String.length label)
                        (String.length raw - String.length label) raw
  else raw.

(** How the child of [cp.spawn(path, ['--version'])] settles the promise
    of [findSpecificGit]: with the first of its ['error'] and ['exit']
    events. The code of ['exit'] is [None] ([null]) when a signal ended
    the child. [buffers] are the chunks of stdout the ['data'] listener
    had pushed when ['exit'] was emitted, each a [Buffer] given by its
    bytes; what the stream delivers after ['exit'] is not among them,
    whatever the child wrote. *)
Inductive spawn_outcome :=
  | SpawnError (err : string)
  | SpawnExit (code : option Z) (buffers : list string).

(** What the callback of [cp.exec(command, callback)] receives. *)
Inductive shell_outcome :=
  | ShellErr (code : Z)
  | ShellOk (out : string).

(** The machine [findGit] runs on. [readdir] is [fs.readdir], which fails
    with an error or lists a directory; [path_join] is Node's [path.join]
    and [toString_utf8] the decoding of the bytes of a [Buffer],
    [Buffer.prototype.toString('utf8')]. *)
Record Host := {
  platform : string;
  process_env : gmap string string;
  spawn_version : string -> spawn_outcome;
  shell : string -> shell_outcome;
  readdir : string -> string + list string;
  path_join : list string -> string;
  toString_utf8 : string -> string
}.

(** [Buffer.concat(buffers)], on the bytes. *)
Definition Buffer_concat (buffers : list string) : string :=
  String.concat "" buffers.

(** What a discovery strategy tries on the host, in order. *)
Inductive probe :=
  | ProbeSpawn (path : string)
  | ProbeShell (command : string)
  | ProbeReaddir (dir : string).

(** A promise of the locator: the probes made until it settled, and how
    it settled. *)
Definition located (A : Type) : Type := (list probe * (rejection + A))%type.

Definition found {A} (a : A) : located A := ([], inr a).
Definition failed {A} (r : rejection) : located A := ([], inl r).
Definition probing {A} (p : probe) (k : located A) : located A :=
  (p :: fst k, snd k).

(** [first.then(void 0, () => next)]: [next] runs only when [first] was
    rejected. *)
Definition or_else {A} (first : located A) (next : located A) : located A :=
  match snd first with
  | inr a => first
  | inl _ => ((fst first ++ fst next)%list, snd next)
  end.

(** [code ? e(...) : c(...)] lets the code [null] through, like 0; the
    version is read from the chunks pushed so far. *)
Definition findSpecificGit (h : Host) (path : string) : located IGit :=
  probing (ProbeSpawn path)
    match spawn_version h path with
    | SpawnError err => failed (RejError err)
    | SpawnExit code buffers =>
        if code_truthy code
        then failed (RejError "Not found")
        else found {| ig_path := path;
                      ig_version :=
                        parseVersion
                          (trim (toString_utf8 h (Buffer_concat buffers))) |}
    end.

Definition findGitDarwin (h : Host) : located IGit :=
  probing (ProbeShell "which git")
    match shell h "which git" with
    | ShellErr _ => failed (RejString "git not found")
    | ShellOk gitPathBuffer =>
        let path := trim gitPathBuffer in
        let getVersion :=
          probing (ProbeShell "git --version")
            match shell h "git --version" with
            | ShellErr _ => failed (RejString "git not found")
            | ShellOk out =>
                found {| ig_path := path;
                         ig_version := parseVersion (trim out) |}
            end in
        if negb (String.eqb path "/usr/bin/git")
        then getVersion
        else
          probing (ProbeShell "xcode-select -p")
            match shell h "xcode-select -p" with
            | ShellErr 2 => failed (RejString "git not found")
            | _ => getVersion
            end
    end.

(** [base] is [process.env[...]]: [None] when the variable is not set. *)
Definition findSystemGitWin32 (h : Host) (base : option string)
  : located IGit :=
  match base with
  | None => failed (RejString "Not found")
  | Some b =>
      if String.eqb b ""
      then failed (RejString "Not found")
      else findSpecificGit h (path_join h [b; "Git"; "cmd"; "git.exe"])
  end.

(** [path.join] throws a [TypeError] on an argument that is not a string
    (its message is Node's); inside [then] that rejects the promise. *)
Definition findGitHubGitWin32 (h : Host) : located IGit :=
  match process_env h !! "LOCALAPPDATA" with
  | None => failed (RejError "Path must be a string")
  | Some appdata =>
      let github := path_join h [appdata; "GitHub"] in
      probing (ProbeReaddir github)
        match readdir h github with
        | inl err => failed (RejError err)
        | inr children =>
            match List.filter (String.prefix "PortableGit") children with
            | [] => failed (RejString "Not found")
            | git :: _ =>
                findSpecificGit h (path_join h [github; git; "cmd"; "git.exe"])
            end
        end
  end.

Definition findGitWin32 (h : Host) : located IGit :=
  or_else
    (or_else
      (or_else
        (or_else
          (findSystemGitWin32 h (process_env h !! "ProgramW6432"))
          (findSystemGitWin32 h (process_env h !! "ProgramFiles(x86)")))
        (findSystemGitWin32 h (process_env h !! "ProgramFiles")))
      (findSpecificGit h "git"))
    (findGitHubGitWin32 h).

(** The [switch (process.platform)] of [findGit]. *)
Definition platform_search (h : Host) : located IGit :=
  if String.eqb (platform h) "darwin" then findGitDarwin h
  else if String.eqb (platform h) "win32" then findGitWin32 h
  else findSpecificGit h "git".

(** [findGit(hint)]; [None] is [undefined]. *)
Definition findGit (h : Host) (hint : option string) : located IGit :=
  let first :=
    match hint with
    | Some p => if negb (String.eqb p "")
                then findSpecificGit h p
                else failed RejNull
    | None => failed RejNull
    end in
  or_else first (platform_search h).

(** The version query of [path] ends in an ['error'] event or in a
    non-zero exit code. *)
Definition version_query_fails (h : Host) (path : string) : bool :=
  match spawn_version h path with
  | SpawnError _ => true
  | SpawnExit code _ => code_truthy code
  end.

(** A host other than macOS and Windows on which only the bare name [git]
    runs. The outputs of the sample hosts are ASCII, which is its own
    decoding. *)
Definition sample_host : Host :=
  {| platform := "linux";
     process_env := ∅;
     spawn_version := fun p =>
       if String.eqb p "git"
       then SpawnExit (Some 0%Z) ["git version 2.11.0"]
       else SpawnError "spawn ENOENT";
     shell := fun _ => ShellErr 127;
     readdir := fun _ => inl "ENOENT";
     path_join := String.concat "/";
     toString_utf8 := fun bytes => bytes |}.

(** ** The status wire format *)

(** One record of [git status -z]: two status characters, a separator,
    then the NUL-terminated fields. [r_rename] is the extra field that
    precedes the path of a record whose first status character is [R]. *)
Record status_record := {
  r_x : ascii;
  r_y : ascii;
  r_sep : ascii;
  r_rename : option string;
  r_path : string
}.

Definition field (name : string) : string :=
  String.append name (String NUL EmptyString).

Definition encode_record (r : status_record) : string :=
  String (r_x r) (String (r_y r) (String (r_sep r)
    (String.append
       (match r_rename r with Some n => field n | None => EmptyString end)
       (field (r_path r))))).

Fixpoint encode (rs : list status_record) : string :=
  match rs with
  | [] => EmptyString
  | r :: rs' => String.append (encode_record r) (encode rs')
  end.

(** A record is well formed when its fields contain no NUL and it has a
    rename field exactly when its first status character is [R]. *)
Definition well_formed (r : status_record) : bool :=
  nul_free (r_path r) &&
  match r_rename r with
  | Some n => Ascii.eqb (r_x r) "R"%char && nul_free n
  | None => negb (Ascii.eqb (r_x r) "R"%char)
  end.

(** The path is some text followed by the path separator. *)
Fixpoint ends_in_separator (path : string) : bool :=
  match path with
  | EmptyString => false
  | String c rest =>
      match rest with
      | EmptyString => Ascii.eqb c "/"%char
      | String _ _ => ends_in_separator rest
      end
  end.

(** A directory marker: the path ends in the path separator. *)
Definition is_directory_marker (r : status_record) : bool :=
  ends_in_separator (r_path r).

(** The records that contribute an entry. *)
Definition kept (r : status_record) : bool := negb (is_directory_marker r).

(** The entry a record stands for. *)
Definition entry_of (r : status_record) : IFileStatus :=
  {| fs_x := String (r_x r) EmptyString;
     fs_y := String (r_y r) EmptyString;
     fs_path := r_path r;
     fs_rename := r_rename r |}.

(** The records of a list of [(statusX, statusY, path)] triples, all with
    the separator [sep]. *)
Definition record_of_triple (sep : ascii) (t : ascii * ascii * string)
  : status_record :=
  {| r_x := fst (fst t); r_y := snd (fst t); r_sep := sep;
     r_rename := None; r_path := snd t |}.

Definition entry_of_triple (t : ascii * ascii * string) : IFileStatus :=
  {| fs_x := String (fst (fst t)) EmptyString;
     fs_y := String (snd (fst t)) EmptyString;
     fs_path := snd t;
     fs_rename := None |}.

(** A triple the round trip is stated for: no rename marker, a path
    without NUL that is not a directory marker. *)
Definition plain_triple (t : ascii * ascii * string) : bool :=
  negb (Ascii.eqb (fst (fst t)) "R"%char) &&
  nul_free (snd t) &&
  negb (ends_with_slash (snd t)).

(** A non-empty text whose last code unit is not NUL. *)
Definition unterminated (status : string) : bool :=
  match last_char status with
  | Some c => negb (Ascii.eqb c NUL)
  | None => false
  end.

Definition synthetic_status (sep : ascii) (ts : list (ascii * ascii * string))
  : string :=
  encode (map (record_of_triple sep) ts).

(** ** The classification table of the specification *)

(** The kinds in priority order, each with the phrases that select it. *)
Definition priority_table : list (GitErrorCodes * list string) :=
  [ (AuthenticationFailed, ["Authentication failed"]);
    (NotAGitRepository, ["Not a git repository"]);
    (BadConfigFile, ["bad config file"]);
    (CantCreatePipe, ["cannot make pipe for command substitution";
                      "cannot create standard input pipe"]);
    (RepositoryNotFound, ["Repository not found"]);
    (CantAccessRemote, ["unable to access"]) ].

(** The first kind of [table] one of whose phrases occurs in [text]. *)
Fixpoint first_match (table : list (GitErrorCodes * list string))
    (text : string) : option GitErrorCodes :=
  match table with
  | [] => None
  | (kind, phrases) :: table' =>
      if existsb (fun p => contains p text) phrases
      then Some kind
      else first_match table' text
  end.

(** [phrase] occurs in [text]. *)
Definition occurs (phrase text : string) : Prop :=
  exists before after : string,
    text = String.append before (String.append phrase after).

(** The kind [table] selects for [text]: the kind of the first row one of
    whose phrases occurs in the text, and none when no phrase of any row
    does. *)
Inductive selects
  : list (GitErrorCodes * list string) -> string -> option GitErrorCodes
    -> Prop :=
  | selects_none (text : string) : selects [] text None
  | selects_here (kind : GitErrorCodes) (phrases : list string)
      (table : list (GitErrorCodes * list string)) (text phrase : string) :
      In phrase phrases -> occurs phrase text ->
      selects ((kind, phrases) :: table) text (Some kind)
  | selects_next (kind : GitErrorCodes) (phrases : list string)
      (table : list (GitErrorCodes * list string)) (text : string)
      (k : option GitErrorCodes) :
      (forall phrase, In phrase phrases -> ~ occurs phrase text) ->
      selects table text k ->
      selects ((kind, phrases) :: table) text k.

(** The environment as the specification words it: the inherited
    environment, overlaid with the two fixed variables, overlaid with the
    caller's overrides. *)
Definition spec_env (process_env : gmap string string)
    (caller : option (gmap string jsval)) (args : list jsval)
  : gmap string jsval :=
  Object_assign ∅ [JStr <$> process_env; fixed_env args; env_or_empty caller].

(** ** The join, read off the trace *)

(** How [exec] ends for a child that emits [trace]: rejected as soon as
    ['error'] comes before ['exit']; resolved once ['exit'] and the two
    ['close'] events have all come; suspended until then. *)
Definition outcome_of_trace (trace : list event) : outcome IExecutionResult :=
  match first_exit trace with
  | Some (inl err) => Rejected (RejError err)
  | Some (inr code) =>
      if stdout_closed trace && stderr_closed trace
      then Resolved {| exitCode := code;
                       stdout := join (stdout_chunks trace);
                       stderr := join (stderr_chunks trace) |}
      else Pending
  | None => Pending
  end.

(** The join of a suspended [exec] has not settled. *)
Definition unsettled (st : exec_state) : Prop :=
  match es_exit st, es_stdout st, es_stderr st with
  | Broken _, _, _ => False
  | Fulfilled _, Fulfilled _, Fulfilled _ => False
  | _, _, _ => True
  end.

Definition outcome_tracked (seen : list event) (st : exec_state) : Prop :=
  match es_done st with
  | None => unsettled st
  | Some (inl err) => first_exit seen = Some (inl err)
  | Some (inr _) => True
  end.

(** ** [Git.getRepositoryRoot] and [Repository.getStatus] *)

(** [Git.getRepositoryRoot(path)]. *)
Definition Git_getRepositoryRoot (git : Git)
    (process_env : gmap string string) (path : string)
    (call : nat) (ls0 : list listener) (trace : list event)
  : outcome string :=
  match Git_exec git process_env path
                 [JStr "rev-parse"; JStr "--show-toplevel"] no_options
                 call ls0 trace with
  | Resolved result => Resolved (trim (stdout result))
  | Rejected r => Rejected r
  | Pending => Pending
  end.

(** [Repository.getStatus()]: the status subcommand, then the parse of its
    standard output. [None] when the parse is still running after [fuel]
    steps. *)
Definition Repository_getStatus (fuel : nat) (repo : Repository)
    (process_env : gmap string string)
    (call : nat) (ls0 : list listener) (trace : list event)
  : option (outcome (list IFileStatus)) :=
  match Repository_exec repo process_env
                        [JStr "status"; JStr "-z"; JStr "-u"] no_options
                        call ls0 trace with
  | Resolved executionResult =>
      match getStatus fuel (stdout executionResult) with
      | Some result => Some (Resolved result)
      | None => None
      end
  | Rejected r => Some (Rejected r)
  | Pending => Some Pending
  end.

(** The first and the last code unit of [s] are not white space. *)
Definition starts_with_space (s : string) : bool :=
  match s with
  | EmptyString => false
  | String c _ => is_space c
  end.

Definition ends_with_space (s : string) : bool :=
  match last_char s with
  | Some c => is_space c
  | None => false
  end.

(** A located binary was probed directly and answered the version
    query. *)
Definition checked (h : Host) (x : located IGit) : Prop :=
  forall g : IGit,
    snd x = inr g ->
    version_query_fails h (ig_path g) = false /\
    In (ProbeSpawn (ig_path g)) (fst x).

Definition is_readdir (p : probe) : bool :=
  match p with
  | ProbeReaddir _ => true
  | _ => false
  end.

Definition is_spawn (p : probe) : bool :=
  match p with
  | ProbeSpawn _ => true
  | _ => false
  end.

(** A macOS host whose only [git] is the stub that asks to install the
    developer tools. *)
Definition stub_host : Host :=
  {| platform := "darwin";
     process_env := ∅;
     spawn_version := fun _ => SpawnError "spawn ENOENT";
     shell := fun command =>
       if String.eqb command "which git"
       then ShellOk (String.append "/usr/bin/git" (String "010"%char ""))
       else if String.eqb command "xcode-select -p" then ShellErr 2
       else ShellOk "git version 2.11.0";
     readdir := fun _ => inl "ENOENT";
     path_join := String.concat "/";
     toString_utf8 := fun bytes => bytes |}.

(** A macOS host with [git] installed by a package manager. *)
Definition mac_host : Host :=
  {| platform := "darwin";
     process_env := ∅;
     spawn_version := fun _ => SpawnError "spawn ENOENT";
     shell := fun command =>
       if String.eqb command "which git"
       then ShellOk (String.append "/usr/local/bin/git"
                                   (String "010"%char ""))
       else if String.eqb command "git --version"
       then ShellOk (String.append "git version 2.11.0"
                                   (String "010"%char ""))
       else ShellErr 1;
     readdir := fun _ => inl "ENOENT";
     path_join := String.concat "/";
     toString_utf8 := fun bytes => bytes |}.

(** A Windows host with no [Program Files] variables set, on which the
    bare name [git] runs. *)
Definition windows_host : Host :=
  {| platform := "win32";
     process_env := ∅;
     spawn_version := fun p =>
       if String.eqb p "git"
       then SpawnExit (Some 0%Z) ["git version 2.11."; "0.windows.1"]
       else SpawnError "spawn ENOENT";
     shell := fun _ => ShellErr 1;
     readdir := fun _ => inl "ENOENT";
     path_join := String.concat "\";
     toString_utf8 := fun bytes => bytes |}.

(** ** The settings store: [config/config.ts] *)

Record GitConfig := {
  user_name : string;
  user_email : string
}.

Definition CUSTOM_GIT_CONFIG : GitConfig :=
  {| user_name := "custom"; user_email := "" |}.

Definition IGNORE_CURRENT_ROOT_GIT_CONFIG : GitConfig :=
  {| user_name := "Ignore current root"; user_email := "" |}.

(** The two settings of the section [git-autoconfig] this code reads and
    writes; [None] is a setting that has no value. [update] is taken to
    have completed when the next [get] runs. *)
Record Settings := {
  configList : list GitConfig;
  ignoreRootList : option (list string)
}.

(** [getConfig().get<string[]>(IGNORE_LIST_KEY, [])]. *)
Definition getIgnoreRootList (st : Settings) : list string :=
  match ignoreRootList st with
  | Some l => l
  | None => []
  end.

Definition setIgnoreRootList (l : list string) (st : Settings) : Settings :=
  {| configList := configList st; ignoreRootList := Some l |}.

(** A [Set] of strings, as the list of its elements in insertion order.
    [Set_add] is [set.add(x)]; [Set_new] is [new Set(iterable)];
    [Array.from(set)] is the list itself. *)
Definition Set_add (x : string) (set : list string) : list string :=
  if decide (x ∈ set) then set else set ++ [x].

Definition Set_new (l : list string) : list string :=
  foldl (fun set x => Set_add x set) [] l.

Definition addRootToIgnoreList (root : string) (st : Settings) : Settings :=
  setIgnoreRootList (Set_new (getIgnoreRootList st ++ [root])) st.

Definition removeRootFromIgnoreList (root : string) (st : Settings)
  : Settings :=
  setIgnoreRootList
    (Set_new (List.filter (fun r => negb (String.eqb r root))
                          (getIgnoreRootList st))) st.

(** [l.indexOf(x)], counting from [i]: [-1] when [x] is not there. *)
Fixpoint indexOf_from (x : string) (l : list string) (i : Z) : Z :=
  match l with
  | [] => (-1)%Z
  | y :: l' => if String.eqb y x then i else indexOf_from x l' (i + 1)%Z
  end.

Definition indexOf (x : string) (l : list string) : Z := indexOf_from x l 0.

Definition isRootInIgnoreList (root : string) (st : Settings) : bool :=
  (indexOf root (getIgnoreRootList st) >=? 0)%Z.

Definition generateGitConfigKey (c : GitConfig) : string :=
  String.append (user_email c) (String.append " " (user_name c)).

Definition getConfigList (st : Settings) : list GitConfig := configList st.

Definition updateConfigList (l : list GitConfig) (st : Settings) : Settings :=
  {| configList := l; ignoreRootList := ignoreRootList st |}.

Fixpoint no_space (s : string) : bool :=
  match s with
  | EmptyString => true
  | String c s' => negb (Ascii.eqb c " "%char) && no_space s'
  end.

(** ** Remembering and choosing a config: [setGitConfig] in [extension.ts] *)

(** The first statement of the inner [setGitConfig]: a config whose key
    is not in the list yet is pushed and the list is stored. *)
Definition remember_config (newConfig : GitConfig) (st : Settings)
  : Settings :=
  let configList := getConfigList st in
  let newConfigKey := generateGitConfigKey newConfig in
  match List.find (fun c => String.eqb (generateGitConfigKey c) newConfigKey)
                  configList with
  | Some _ => st
  | None => updateConfigList (configList ++ [newConfig]) st
  end.

(** A [Map<string, GitConfig>], as the list of its entries in insertion
    order. [Map_set] is [map.set(k, v)]: the value of a key that is there
    is replaced in place. *)
Fixpoint Map_set (k : string) (v : GitConfig)
    (m : list (string * GitConfig)) : list (string * GitConfig) :=
  match m with
  | [] => [(k, v)]
  | (k', v') :: m' =>
      if String.eqb k' k then (k, v) :: m' else (k', v') :: Map_set k v m'
  end.

Fixpoint Map_get (k : string) (m : list (string * GitConfig))
  : option GitConfig :=
  match m with
  | [] => None
  | (k', v') :: m' => if String.eqb k' k then Some v' else Map_get k m'
  end.

(** The map the quick pick is built from. *)
Definition pick_map (configList : list GitConfig)
  : list (string * GitConfig) :=
  foldl (fun map c => Map_set (generateGitConfigKey c) c map) []
        (configList ++ [CUSTOM_GIT_CONFIG; IGNORE_CURRENT_ROOT_GIT_CONFIG]).

(** [Array.from(map.keys())]: the items shown. *)
Definition pick_items (configList : list GitConfig) : list string :=
  map fst (pick_map configList).

Inductive pick_action :=
  | CustomSetGitConfig
  | IgnoreCurrentRoot
  | SetGitConfig (c : option GitConfig).   (* [None] is [undefined] *)

(** What [setGitConfig] does with the item picked; [pick = None] is a
    quick pick that was dismissed. With an empty list there is no quick
    pick. *)
Definition choose (configList : list GitConfig) (pick : option string)
  : pick_action :=
  match configList with
  | [] => CustomSetGitConfig
  | _ :: _ =>
      match pick with
      | None => SetGitConfig None
      | Some k =>
          if String.eqb k (generateGitConfigKey CUSTOM_GIT_CONFIG)
          then CustomSetGitConfig
          else if String.eqb k
                    (generateGitConfigKey IGNORE_CURRENT_ROOT_GIT_CONFIG)
          then IgnoreCurrentRoot
          else SetGitConfig (Map_get k (pick_map configList))
      end
  end.

(** ** The polling check: [extension.ts] *)

Definition MESSAGE_PREFIX : string := "git-autoconfig: ".

(** The string a member of [GitErrorCodes] is. *)
Definition code_name (k : GitErrorCodes) : string :=
  match k with
  | BadConfigFile => "BadConfigFile"
  | AuthenticationFailed => "AuthenticationFailed"
  | NoUserNameConfigured => "NoUserNameConfigured"
  | NoUserEmailConfigured => "NoUserEmailConfigured"
  | NoRemoteRepositorySpecified => "NoRemoteRepositorySpecified"
  | NotAGitRepository => "NotAGitRepository"
  | NotAtRepositoryRoot => "NotAtRepositoryRoot"
  | Conflict => "Conflict"
  | UnmergedChanges => "UnmergedChanges"
  | PushRejected => "PushRejected"
  | RemoteConnectionError => "RemoteConnectionError"
  | DirtyWorkTree => "DirtyWorkTree"
  | CantOpenResource => "CantOpenResource"
  | GitNotFound => "GitNotFound"
  | CantCreatePipe => "CantCreatePipe"
  | CantAccessRemote => "CantAccessRemote"
  | RepositoryNotFound => "RepositoryNotFound"
  end.

(** What the code shows through [vscode.window]. *)
Inductive ui_message :=
  | ShowInformation (text : string)
  | ShowWarning (text : string).

(** [errorMessage += e.gitErrorCode]: an unset kind is [undefined], which
    the concatenation spells out. *)
Definition append_kind (message : string) (kind : option GitErrorCodes)
  : string :=
  String.append message
    (match kind with Some k => code_name k | None => "undefined" end).

(** [findRepositoryRoot(showError)] around the outcome of
    [git.getRepositoryRoot(...)]: the root or [null], and what was
    shown. *)
Definition findRepositoryRoot (showError : bool) (root : outcome string)
  : outcome (option string * list ui_message) :=
  match root with
  | Resolved repositoryRoot => Resolved (Some repositoryRoot, [])
  | Rejected e =>
      let errorMessage :=
        String.append MESSAGE_PREFIX "Failed to get git repository root." in
      let errorMessage :=
        match e with
        | RejGitError g => append_kind errorMessage (ge_gitErrorCode g)
        | _ => errorMessage
        end in
      Resolved (None, if showError then [ShowWarning errorMessage] else [])
  | Pending => Pending
  end.

(** [Repository.configGet(scope, key, options)]. *)
Definition Repository_configGet (repo : Repository)
    (process_env : gmap string string) (scope key : string) (o : options)
    (call : nat) (ls0 : list listener) (trace : list event)
  : outcome string :=
  match Repository_exec repo process_env (configGet_args scope key) o
                        call ls0 trace with
  | Resolved result => Resolved (stdout result)
  | Rejected r => Rejected r
  | Pending => Pending
  end.

(** [getGitConfig(repository, showMessages)]: the two reads run one after
    the other, each on a child of its own; the second is awaited only
    when the first has returned. *)
Definition getGitConfig (repo : Repository)
    (process_env : gmap string string) (showMessages : bool)
    (call1 : nat) (ls1 : list listener) (trace1 : list event)
    (call2 : nat) (ls2 : list listener) (trace2 : list event)
  : outcome (option GitConfig * list ui_message) :=
  let failure :=
    Resolved (None,
              if showMessages
              then [ShowWarning
                      (String.append MESSAGE_PREFIX
                         "user.email or user.name is not set locally. You can set it using command '' ")]
              else []) in
  match Repository_configGet repo process_env "local" "user.email"
                             no_options call1 ls1 trace1 with
  | Resolved email =>
      match Repository_configGet repo process_env "local" "user.name"
                                 no_options call2 ls2 trace2 with
      | Resolved name =>
          let userEmail := trim email in
          let userName := trim name in
          Resolved
            (Some {| user_name := userName; user_email := userEmail |},
             if showMessages
             then [ShowInformation
                     (String.append MESSAGE_PREFIX
                        (String.append "user.email="
                           (String.append userEmail
                              (String.append " user.name=" userName))))]
             else [])
      | Rejected _ => failure
      | Pending => Pending
      end
  | Rejected _ => failure
  | Pending => Pending
  end.

(** What one round of [checkForLocalConfig] comes to. *)
Inductive check_action :=
  | RootIgnored                       (* the early [return] *)
  | NoRepository                      (* no root: nothing is done *)
  | PromptForConfig                   (* [await setGitConfig()] *)
  | AlreadyConfigured (c : GitConfig).

(** The body of [checkForLocalConfig], given the root
    [findRepositoryRoot(false)] returned and the config [getGitConfig]
    returns for it. *)
Definition checkForLocalConfig (st : Settings) (repositoryRoot : option string)
    (gitConfig : option GitConfig) : check_action :=
  if match repositoryRoot with
     | Some root => isRootInIgnoreList root st
     | None => false
     end
  then RootIgnored
  else
    match repositoryRoot with
    | Some root =>
        if negb (String.eqb root "")
        then match gitConfig with
             | None => PromptForConfig
             | Some c => AlreadyConfigured c
             end
        else NoRepository
    | None => NoRepository
    end.

(** * Properties *)

(** ** Strings *)

Section StringFacts.

Lemma append_assoc (a b c : string) :
  String.append (String.append a b) c = String.append a (String.append b c).
Proof. induction a as [|ch a IH]; simpl; [reflexivity | now rewrite IH]. Qed.

Lemma append_empty_r (a : string) : String.append a EmptyString = a.
Proof. induction a as [|ch a IH]; simpl; [reflexivity | now rewrite IH]. Qed.

Lemma length_append (a b : string) :
  String.length (String.append a b) = String.length a + String.length b.
Proof. induction a as [|ch a IH]; simpl; [reflexivity | now rewrite IH]. Qed.

Lemma get_append_r (a b : string) (k : nat) :
  String.get (String.length a + k) (String.append a b) = String.get k b.
Proof. induction a as [|ch a IH]; simpl; [reflexivity | exact IH]. Qed.

Lemma get_Some_lt (a : string) (k : nat) (c : ascii) :
  String.get k a = Some c -> k < String.length a.
Proof.
  revert k; induction a as [|ch a IH]; intros k; simpl; [discriminate |].
  destruct k as [|k]; [lia |]. intros H. apply IH in H. lia.
Qed.

Lemma substring_prefix (b c : string) :
  String.substring 0 (String.length b) (String.append b c) = b.
Proof.
  induction b as [|ch b IH]; simpl.
  - destruct c; reflexivity.
  - now rewrite IH.
Qed.

Lemma substring_append (a b c : string) :
  String.substring (String.length a) (String.length b)
    (String.append a (String.append b c)) = b.
Proof.
  induction a as [|ch a IH]; simpl; [apply substring_prefix | exact IH].
Qed.

Lemma charAt_append (a b : string) (k : nat) :
  charAt (String.append a b) (String.length a + k) = charAt b k.
Proof. unfold charAt. now rewrite get_append_r. Qed.

(** [substring] between the two ends of a middle part returns it. *)
Lemma js_substring_middle (a b c : string) :
  substring (String.append a (String.append b c))
            (String.length a) (String.length a + String.length b) = b.
Proof.
  unfold substring. rewrite !length_append.
  replace (Nat.min (String.length a)
             (String.length a + (String.length b + String.length c)))
    with (String.length a) by lia.
  replace (Nat.min (String.length a + String.length b)
             (String.length a + (String.length b + String.length c)))
    with (String.length a + String.length b) by lia.
  replace (Nat.min (String.length a) (String.length a + String.length b))
    with (String.length a) by lia.
  replace (Nat.max (String.length a) (String.length a + String.length b)
           - String.length a)
    with (String.length b) by lia.
  apply substring_append.
Qed.

Lemma last_char_append (a : string) (c : ascii) :
  last_char (String.append a (String c EmptyString)) = Some c.
Proof.
  unfold last_char. rewrite length_append. simpl.
  replace (String.length a + 1) with (S (String.length a)) by lia.
  replace (String.length a) with (String.length a + 0) at 1 by lia.
  now rewrite get_append_r.
Qed.

Lemma last_char_cons (c : ascii) (s : string) :
  last_char (String c s)
  = match s with EmptyString => Some c | _ => last_char s end.
Proof. unfold last_char. destruct s as [|c' s]; reflexivity. Qed.

(** The test of the parser on the last code unit agrees with the shape of
    the path: some text followed by the separator. *)
Lemma ends_with_slash_separator (path : string) :
  ends_with_slash path = ends_in_separator path.
Proof.
  unfold ends_with_slash.
  induction path as [|c path IH]; [reflexivity |].
  rewrite last_char_cons. destruct path as [|c' path]; [reflexivity |].
  exact IH.
Qed.

Lemma ends_in_separator_iff (path : string) :
  ends_in_separator path = true
  <-> exists dir, path = String.append dir "/".
Proof.
  induction path as [|c path IH].
  - split; [discriminate |]. intros [[|? ?] H]; discriminate.
  - destruct path as [|c' path].
    + simpl. rewrite Ascii.eqb_eq. split.
      * intros ->. now exists EmptyString.
      * intros [[|a [|? ?]] H]; simpl in H; try discriminate.
        now injection H as ->.
    + change (ends_in_separator (String c (String c' path)))
        with (ends_in_separator (String c' path)).
      rewrite IH. split.
      * intros [dir ->]. now exists (String c dir).
      * intros [[|a dir] H]; simpl in H; [discriminate |].
        injection H as _ H. now exists dir.
Qed.

Lemma prefix_append (n : string) :
  forall h : string,
    String.prefix n h = true <-> exists b, h = String.append n b.
Proof.
  induction n as [|c n IH]; intros [|c' h]; simpl.
  - split; [intros _; now exists EmptyString | reflexivity].
  - split; [intros _; now exists (String c' h) | reflexivity].
  - split; [discriminate | intros [b Hb]; discriminate].
  - destruct (Ascii.ascii_dec c c') as [->|Hne].
    + rewrite IH. split; intros [b Hb]; exists b.
      * simpl. now rewrite Hb.
      * simpl in Hb. now injection Hb.
    + split; [discriminate |].
      intros [b Hb]. simpl in Hb. injection Hb as Hc _. congruence.
Qed.

Lemma contains_cons (needle : string) (c : ascii) (hay : string) :
  contains needle (String c hay)
  = String.prefix needle (String c hay) || contains needle hay.
Proof. reflexivity. Qed.

Lemma contains_empty (needle : string) :
  contains needle EmptyString = String.prefix needle EmptyString.
Proof. unfold contains. apply orb_false_r. Qed.

(** [contains needle hay] holds exactly when [needle] occurs in [hay]. *)
Lemma contains_occurs (needle : string) :
  forall hay : string,
    contains needle hay = true
    <-> exists a b, hay = String.append a (String.append needle b).
Proof.
  induction hay as [|c hay IH].
  - rewrite contains_empty, prefix_append. split.
    + intros [b Hb]. now exists EmptyString, b.
    + intros (a & b & H). destruct a as [|? ?]; [|discriminate].
      now exists b.
  - rewrite contains_cons, orb_true_iff, prefix_append, IH. split.
    + intros [[b Hb]|(a & b & H)].
      * now exists EmptyString, b.
      * exists (String c a), b. simpl. now rewrite H.
    + intros (a & b & H). destruct a as [|c' a].
      * left. now exists b.
      * right. simpl in H. injection H as _ H. now exists a, b.
Qed.

End StringFacts.

(** ** The status parser *)

Section ReadName.

Lemma readName_scan_S (fuel : nat) (status : string) (i : nat) :
  readName_scan (S fuel) status i
  = if String.eqb (charAt status i) (String NUL EmptyString)
    then Some i
    else readName_scan fuel status (S i).
Proof. reflexivity. Qed.

(** The scan stops at the first NUL after a NUL-free field. *)
Lemma readName_scan_field (name : string) :
  forall (fuel : nat) (pre rest : string),
    nul_free name = true ->
    String.length name < fuel ->
    readName_scan fuel
      (String.append pre (String.append name (String NUL rest)))
      (String.length pre)
    = Some (String.length pre + String.length name).
Proof.
  induction name as [|c name IH]; intros fuel pre rest Hfree Hfuel;
    (destruct fuel as [|fuel]; [simpl in Hfuel; lia |]);
    rewrite readName_scan_S;
    replace (String.length pre) with (String.length pre + 0) at 1 by lia;
    rewrite charAt_append.
  - change (charAt (String.append EmptyString (String NUL rest)) 0)
      with (String NUL EmptyString).
    rewrite String.eqb_refl. simpl. f_equal. lia.
  - change (charAt (String.append (String c name) (String NUL rest)) 0)
      with (String c EmptyString).
    simpl in Hfree. apply andb_true_iff in Hfree as [Hc Hfree].
    apply negb_true_iff in Hc.
    assert (Hne : String.eqb (String c EmptyString) (String NUL EmptyString)
                  = false).
    { apply String.eqb_neq. intros [= ->]. now rewrite Ascii.eqb_refl in Hc. }
    rewrite Hne.
    specialize (IH fuel (String.append pre (String c EmptyString)) rest
                  Hfree).
    rewrite length_append, append_assoc in IH. simpl in IH.
    replace (S (String.length pre)) with (String.length pre + 1) by lia.
    change (String.append (String c name) (String NUL rest))
      with (String c (String.append name (String NUL rest))).
    rewrite IH by (simpl in Hfuel; lia).
    simpl. f_equal. lia.
Qed.

(** [readName] on a NUL-terminated field returns the field and leaves
    the cursor just past the NUL. *)
Lemma readName_field (fuel : nat) (pre name rest : string) :
  nul_free name = true ->
  String.length name < fuel ->
  readName fuel (String.append pre (String.append (field name) rest))
           (String.length pre)
  = Some (name, String.length pre + String.length (field name)).
Proof.
  intros Hfree Hfuel. unfold readName, field.
  rewrite append_assoc. simpl String.append.
  rewrite readName_scan_field by assumption.
  rewrite js_substring_middle, length_append. simpl.
  do 2 f_equal. lia.
Qed.

(** A scan that stops has found a NUL, at or after the cursor. *)
Lemma readName_scan_stops (fuel : nat) :
  forall (status : string) (i j : nat),
    readName_scan fuel status i = Some j ->
    i <= j /\ String.get j status = Some NUL.
Proof.
  induction fuel as [|fuel IH]; intros status i j; simpl; [discriminate |].
  destruct (String.eqb_spec (charAt status i) (String NUL EmptyString))
    as [Heq|Hne].
  - intros [= <-]. split; [lia |].
    unfold charAt in Heq. destruct (String.get i status); [|discriminate].
    now injection Heq as ->.
  - intros H. apply IH in H as [Hle Hget]. split; [lia | exact Hget].
Qed.

Lemma readName_stops (fuel : nat) (status name : string) (i i' : nat) :
  readName fuel status i = Some (name, i') ->
  exists j, i' = S j /\ i <= j /\ String.get j status = Some NUL.
Proof.
  unfold readName.
  destruct (readName_scan fuel status i) as [j|] eqn:E; [|discriminate].
  intros [= <- <-]. apply readName_scan_stops in E. eauto.
Qed.

End ReadName.

Section WellFormedInput.

Lemma getStatus_loop_S (fuel : nat) (status : string) (i : nat)
    (result : list IFileStatus) :
  getStatus_loop (S fuel) status i result
  = if (i <? String.length status)%nat
    then match getStatus_body fuel status i with
         | None => None
         | Some (Some current, i') =>
             getStatus_loop fuel status i' (result ++ [current])
         | Some (None, i') => getStatus_loop fuel status i' result
         end
    else Some result.
Proof. reflexivity. Qed.

Lemma length_field (name : string) :
  String.length (field name) = String.length name + 1.
Proof. unfold field. now rewrite length_append. Qed.

Lemma length_encode_record (r : status_record) :
  String.length (encode_record r)
  = 3 + match r_rename r with
        | Some n => String.length n + 1
        | None => 0
        end + (String.length (r_path r) + 1).
Proof.
  destruct r as [x y sep [n|] path]; unfold encode_record; simpl;
    rewrite ?length_append, ?length_field; simpl; lia.
Qed.

(** One pass of the loop body over one well-formed record: the entry of
    the record unless it is a directory marker, and the cursor moved by
    exactly the length of the record. *)
Lemma getStatus_body_record (fuel : nat) (pre rest : string)
    (r : status_record) :
  well_formed r = true ->
  String.length (encode_record r) <= fuel ->
  getStatus_body fuel
    (String.append pre (String.append (encode_record r) rest))
    (String.length pre)
  = Some (if is_directory_marker r then None else Some (entry_of r),
          String.length pre + String.length (encode_record r)).
Proof.
  intros Hwf Hfuel. rewrite length_encode_record in Hfuel.
  rewrite length_encode_record.
  destruct r as [x y sep rn path].
  unfold well_formed in Hwf. simpl in Hwf, Hfuel.
  apply andb_true_iff in Hwf as [Hpath Hrn].
  set (tail := String.append
                 (match rn with Some n => field n | None => EmptyString end)
                 (field path)).
  set (pre3 := String.append pre
                 (String x (String y (String sep EmptyString)))).
  assert (Hlen3 : String.length pre3 = String.length pre + 3).
  { unfold pre3. rewrite length_append. reflexivity. }
  assert (Hstatus :
    String.append pre (String.append (encode_record
      {| r_x := x; r_y := y; r_sep := sep; r_rename := rn;
         r_path := path |}) rest)
    = String.append pre3 (String.append tail rest)).
  { unfold pre3, encode_record. rewrite append_assoc. reflexivity. }
  unfold getStatus_body. cbv zeta.
  assert (Hx : charAt (String.append pre (String.append (encode_record
      {| r_x := x; r_y := y; r_sep := sep; r_rename := rn;
         r_path := path |}) rest)) (String.length pre)
    = String x EmptyString).
  { replace (String.length pre) with (String.length pre + 0) by lia.
    now rewrite charAt_append. }
  assert (Hy : charAt (String.append pre (String.append (encode_record
      {| r_x := x; r_y := y; r_sep := sep; r_rename := rn;
         r_path := path |}) rest)) (String.length pre + 1)
    = String y EmptyString).
  { now rewrite charAt_append. }
  rewrite Hx, Hy, Hstatus, <- Hlen3.
  unfold is_directory_marker, entry_of. simpl r_path. simpl r_x.
  simpl r_y. simpl r_rename.
  destruct rn as [n|].
  - apply andb_true_iff in Hrn as [HR Hn].
    apply Ascii.eqb_eq in HR. subst x.
    rewrite String.eqb_refl.
    unfold tail. rewrite (append_assoc (field n)).
    rewrite readName_field by (assumption || lia).
    rewrite <- length_append, <- append_assoc.
    rewrite readName_field by (assumption || lia).
    rewrite !length_append, !length_field.
    rewrite ends_with_slash_separator.
    destruct (ends_in_separator path); do 2 f_equal;
      rewrite Hlen3; lia.
  - assert (HR : String.eqb (String x EmptyString) "R" = false).
    { apply String.eqb_neq. intros [= ->]. discriminate. }
    rewrite HR. unfold tail. simpl String.append.
    rewrite readName_field by (assumption || lia).
    rewrite length_field, ends_with_slash_separator.
    destruct (ends_in_separator path); do 2 f_equal; rewrite Hlen3; lia.
Qed.

(** The loop over a text made of well-formed records, started at the
    first of them with [acc] already collected. *)
Lemma getStatus_loop_records (rs : list status_record) :
  forall (fuel : nat) (pre : string) (acc : list IFileStatus),
    forallb well_formed rs = true ->
    String.length (encode rs) < fuel ->
    getStatus_loop fuel (String.append pre (encode rs)) (String.length pre)
                   acc
    = Some (acc ++ map entry_of (List.filter kept rs)).
Proof.
  induction rs as [|r rs IH]; intros fuel pre acc Hwf Hfuel;
    (destruct fuel as [|fuel]; [lia |]); rewrite getStatus_loop_S.
  - change (encode []) with EmptyString.
    rewrite append_empty_r, Nat.ltb_irrefl.
    simpl. now rewrite app_nil_r.
  - simpl in Hwf. apply andb_true_iff in Hwf as [Hr Hrs].
    change (encode (r :: rs))
      with (String.append (encode_record r) (encode rs)) in *.
    rewrite length_append in Hfuel.
    pose proof (length_encode_record r) as Hlen.
    assert (Hlt : (String.length pre
                   <? String.length
                        (String.append pre
                           (String.append (encode_record r) (encode rs))))%nat
                  = true).
    { apply Nat.ltb_lt. rewrite !length_append. lia. }
    rewrite Hlt, getStatus_body_record by (assumption || lia).
    rewrite <- length_append, <- append_assoc.
    unfold kept at 1. simpl List.filter.
    destruct (is_directory_marker r) eqn:Hdir; simpl negb; cbv iota.
    + apply IH; [assumption | lia].
    + rewrite IH by (assumption || lia).
      simpl map. now rewrite <- app_assoc.
Qed.

Lemma getStatus_records (rs : list status_record) (fuel : nat) :
  forallb well_formed rs = true ->
  String.length (encode rs) < fuel ->
  getStatus fuel (encode rs) = Some (map entry_of (List.filter kept rs)).
Proof.
  intros Hwf Hfuel. unfold getStatus.
  exact (getStatus_loop_records rs fuel EmptyString [] Hwf Hfuel).
Qed.

End WellFormedInput.

Section Fuel.

Lemma readName_scan_more_fuel (fuel : nat) :
  forall (fuel' : nat) (status : string) (i j : nat),
    fuel <= fuel' ->
    readName_scan fuel status i = Some j ->
    readName_scan fuel' status i = Some j.
Proof.
  induction fuel as [|fuel IH]; intros fuel' status i j Hle; simpl;
    [discriminate |].
  destruct fuel' as [|fuel']; [lia |]. simpl.
  destruct (String.eqb (charAt status i) (String NUL EmptyString));
    [trivial |].
  apply IH. lia.
Qed.

Lemma readName_more_fuel (fuel fuel' : nat) (status : string) (i : nat)
    (r : string * nat) :
  fuel <= fuel' ->
  readName fuel status i = Some r ->
  readName fuel' status i = Some r.
Proof.
  unfold readName. intros Hle.
  destruct (readName_scan fuel status i) as [j|] eqn:E; [|discriminate].
  now rewrite (readName_scan_more_fuel fuel fuel' status i j Hle E).
Qed.

Lemma getStatus_body_more_fuel (fuel fuel' : nat) (status : string)
    (i : nat) (r : option IFileStatus * nat) :
  fuel <= fuel' ->
  getStatus_body fuel status i = Some r ->
  getStatus_body fuel' status i = Some r.
Proof.
  unfold getStatus_body. cbv zeta. intros Hle.
  destruct (String.eqb (charAt status i) "R").
  - destruct (readName fuel status (i + 3)) as [[n k]|] eqn:E1;
      [|discriminate].
    rewrite (readName_more_fuel fuel fuel' status (i + 3) (n, k) Hle E1).
    destruct (readName fuel status k) as [[path k']|] eqn:E2;
      [|discriminate].
    now rewrite (readName_more_fuel fuel fuel' status k (path, k') Hle E2).
  - destruct (readName fuel status (i + 3)) as [[path k']|] eqn:E2;
      [|discriminate].
    now rewrite (readName_more_fuel fuel fuel' status (i + 3) (path, k')
                   Hle E2).
Qed.

Lemma getStatus_loop_more_fuel (fuel : nat) :
  forall (fuel' : nat) (status : string) (i : nat)
         (acc entries : list IFileStatus),
    fuel <= fuel' ->
    getStatus_loop fuel status i acc = Some entries ->
    getStatus_loop fuel' status i acc = Some entries.
Proof.
  induction fuel as [|fuel IH]; intros fuel' status i acc entries Hle;
    [discriminate |].
  destruct fuel' as [|fuel']; [lia |].
  rewrite !getStatus_loop_S.
  destruct (i <? String.length status)%nat; [|trivial].
  destruct (getStatus_body fuel status i) as [[current k]|] eqn:E;
    [|discriminate].
  rewrite (getStatus_body_more_fuel fuel fuel' status i _ ltac:(lia) E).
  destruct current; apply IH; lia.
Qed.

(** The result of the parse does not depend on the fuel: once some amount
    of fuel yields a list of entries, every larger amount yields the same
    list. *)
Theorem getStatus_more_fuel (fuel fuel' : nat) (status : string)
    (entries : list IFileStatus) :
  fuel <= fuel' ->
  getStatus fuel status = Some entries ->
  getStatus fuel' status = Some entries.
Proof. unfold getStatus. apply getStatus_loop_more_fuel. Qed.

Lemma getStatus_more_fuel_witness :
  getStatus 90 (field "?? notes.txt")
  = Some [{| fs_x := "?"; fs_y := "?"; fs_path := "notes.txt";
             fs_rename := None |}].
Proof.
  apply (getStatus_more_fuel 20 90 (field "?? notes.txt"));
    [lia | reflexivity].
Defined.

End Fuel.

Section StatusParserClaims.

Lemma filter_split_length {A} (p : A -> bool) (l : list A) :
  length (List.filter (fun a => negb (p a)) l)
  = length l - length (List.filter p l).
Proof.
  induction l as [|a l IH]; simpl; [reflexivity |].
  pose proof (List.filter_length_le p l) as Hle.
  destruct (p a); simpl; rewrite IH; lia.
Qed.

(** C4. For a status text made of well-formed NUL-delimited records, the
    parser returns, given fuel beyond the length of the text, exactly the
    entries of the records that are not directory markers, in the order
    of the records; the number of entries is the number of records minus
    the number of directory markers. *)
Theorem getStatus_one_entry_per_record (rs : list status_record)
    (fuel : nat) :
  forallb well_formed rs = true ->
  String.length (encode rs) < fuel ->
  getStatus fuel (encode rs) = Some (map entry_of (List.filter kept rs)) /\
  length (map entry_of (List.filter kept rs))
  = length rs - length (List.filter is_directory_marker rs).
Proof.
  intros Hwf Hfuel. split.
  - now apply getStatus_records.
  - rewrite length_map. apply filter_split_length.
Qed.

Lemma getStatus_one_entry_per_record_witness :
  let rs :=
    [ {| r_x := "M"%char; r_y := " "%char; r_sep := " "%char;
         r_rename := None; r_path := "src/a.ts" |};
      {| r_x := "?"%char; r_y := "?"%char; r_sep := " "%char;
         r_rename := None; r_path := "vendor/lib/" |};
      {| r_x := "R"%char; r_y := " "%char; r_sep := " "%char;
         r_rename := Some "new.ts"; r_path := "old.ts" |} ] in
  getStatus 64 (encode rs)
  = Some [ {| fs_x := "M"; fs_y := " "; fs_path := "src/a.ts";
              fs_rename := None |};
           {| fs_x := "R"; fs_y := " "; fs_path := "old.ts";
              fs_rename := Some "new.ts" |} ] /\
  2 = 3 - 1.
Proof.
  intros rs.
  refine (getStatus_one_entry_per_record rs 64 eq_refl _).
  vm_compute. lia.
Defined.

Lemma plain_triples_records (sep : ascii)
    (ts : list (ascii * ascii * string)) :
  forallb plain_triple ts = true ->
  forallb well_formed (map (record_of_triple sep) ts) = true /\
  map entry_of (List.filter kept (map (record_of_triple sep) ts))
  = map entry_of_triple ts.
Proof.
  induction ts as [|[[x y] path] ts IH]; intros H; [now split |].
  simpl in H. apply andb_true_iff in H as [Ht Hts].
  destruct (IH Hts) as [IHwf IHmap].
  unfold plain_triple in Ht. simpl in Ht.
  apply andb_true_iff in Ht as [Ht Hslash].
  apply andb_true_iff in Ht as [HR Hnul].
  split.
  - simpl. unfold well_formed at 1. simpl. now rewrite Hnul, HR, IHwf.
  - simpl. unfold kept at 1, is_directory_marker. simpl r_path.
    rewrite <- ends_with_slash_separator, Hslash. simpl. now rewrite IHmap.
Qed.

(** C5. Round trip: for a list of (statusX, statusY, path) triples with
    no rename marker, no NUL inside a path and no path that is a
    directory marker, parsing the text built from the list (per record
    the two status characters, one separator character, the path and a
    NUL) gives back the entries of the list, in order. *)
Theorem getStatus_round_trip (sep : ascii)
    (ts : list (ascii * ascii * string)) (fuel : nat) :
  forallb plain_triple ts = true ->
  String.length (synthetic_status sep ts) < fuel ->
  getStatus fuel (synthetic_status sep ts) = Some (map entry_of_triple ts).
Proof.
  intros Hplain Hfuel.
  destruct (plain_triples_records sep ts Hplain) as [Hwf Hmap].
  unfold synthetic_status in *.
  rewrite getStatus_records by assumption. now rewrite Hmap.
Qed.

Lemma getStatus_round_trip_witness :
  let ts := [ ("M"%char, " "%char, "README.md");
              ("?"%char, "?"%char, "src/git/git.ts");
              ("A"%char, "D"%char, "") ] in
  getStatus 40 (synthetic_status " "%char ts)
  = Some (map entry_of_triple ts).
Proof.
  intros ts.
  apply (getStatus_round_trip " "%char ts 40);
    [reflexivity | vm_compute; lia].
Defined.

(** C6, as stated, fails on a rename record whose path is a directory
    marker: the record is well formed and the parser yields no entry. *)
Lemma getStatus_rename_directory_marker :
  let r := {| r_x := "R"%char; r_y := " "%char; r_sep := " "%char;
              r_rename := Some "lib"; r_path := "vendor/" |} in
  well_formed r = true /\
  getStatus 32 (encode [r]) = Some [].
Proof. split; reflexivity. Qed.

(** C6, amended. On a record whose index status is [R], followed by a
    NUL-terminated rename-source field and a NUL-terminated path, one
    pass of the loop body moves the cursor by exactly the three status
    characters plus the two fields with their NULs, and, unless the path
    ends in the path separator, yields the one entry whose [rename] is
    the first field and whose [path] is the second; when the path ends
    in the separator it yields none. *)
Theorem getStatus_body_rename (fuel : nat) (pre rest : string)
    (y sep : ascii) (source path : string) :
  nul_free source = true ->
  nul_free path = true ->
  String.length source + String.length path + 5 <= fuel ->
  getStatus_body fuel
    (String.append pre
       (String.append
          (String "R"%char (String y (String sep
             (String.append (field source) (field path)))))
          rest))
    (String.length pre)
  = Some (if ends_in_separator path then None
          else Some {| fs_x := "R"; fs_y := String y EmptyString;
                       fs_path := path; fs_rename := Some source |},
          String.length pre
          + (3 + String.length (field source) + String.length (field path))).
Proof.
  intros Hsource Hpath Hfuel.
  pose (r := {| r_x := "R"%char; r_y := y; r_sep := sep;
                r_rename := Some source; r_path := path |}).
  assert (Hwf : well_formed r = true).
  { unfold well_formed. simpl. now rewrite Hsource, Hpath. }
  pose proof (getStatus_body_record fuel pre rest r Hwf) as H.
  rewrite length_encode_record in H. simpl in H.
  rewrite !length_field. apply H. lia.
Qed.

Lemma getStatus_body_rename_witness :
  getStatus_body 32
    (String.append (field "?? x")
       (String.append
          (String "R"%char (String " "%char (String " "%char
             (String.append (field "new.ts") (field "old.ts")))))
          (field "M  y")))
    (String.length (field "?? x"))
  = Some (Some {| fs_x := "R"; fs_y := " ";
                  fs_path := "old.ts"; fs_rename := Some "new.ts" |},
          5 + (3 + 7 + 7)).
Proof.
  refine (getStatus_body_rename 32 (field "?? x") (field "M  y")
                                " "%char " "%char "new.ts" "old.ts"
                                eq_refl eq_refl _).
  vm_compute. lia.
Defined.

End StatusParserClaims.

Section Divergence.

(** A pass of the loop body that completes leaves the cursor just past
    a NUL of the text. *)
Lemma getStatus_body_stops (fuel : nat) (status : string) (i i' : nat)
    (current : option IFileStatus) :
  getStatus_body fuel status i = Some (current, i') ->
  exists j, i' = S j /\ String.get j status = Some NUL.
Proof.
  unfold getStatus_body. cbv zeta.
  set (first := if String.eqb (charAt status i) "R" then _ else _).
  destruct first as [[rename k]|]; [|discriminate].
  destruct (readName fuel status k) as [[path k']|] eqn:Hpath;
    [|discriminate].
  apply readName_stops in Hpath as (j & -> & _ & Hj).
  destruct (ends_with_slash path); intros [= _ <-]; eauto.
Qed.

Lemma unterminated_last (status : string) (j : nat) :
  unterminated status = true ->
  String.get j status = Some NUL ->
  S j < String.length status.
Proof.
  unfold unterminated, last_char. intros Hlast Hj.
  pose proof (get_Some_lt _ _ _ Hj) as Hlt.
  destruct (String.length status) as [|n] eqn:Hlen; [lia |].
  destruct (Nat.eq_dec j n) as [->|Hne]; [|lia].
  rewrite Hj in Hlast. discriminate.
Qed.

(** Inside a text whose last code unit is not NUL the loop never reaches
    its exit: whatever the fuel, it runs out. *)
Lemma getStatus_loop_unterminated (fuel : nat) :
  forall (status : string) (i : nat) (result : list IFileStatus),
    unterminated status = true ->
    i < String.length status ->
    getStatus_loop fuel status i result = None.
Proof.
  induction fuel as [|fuel IH]; intros status i result Hlast Hi;
    [reflexivity |].
  rewrite getStatus_loop_S.
  apply Nat.ltb_lt in Hi. rewrite Hi.
  destruct (getStatus_body fuel status i) as [[current i']|] eqn:Hbody;
    [|reflexivity].
  apply getStatus_body_stops in Hbody as (j & -> & Hj).
  pose proof (unterminated_last status j Hlast Hj) as Hlt.
  destruct current; now apply IH.
Qed.

(** C8, the failing case. On a non-empty text whose last code unit is
    not NUL the parse does not terminate: for every amount of fuel the
    loop is still running when the fuel is spent. *)
Theorem getStatus_unterminated_diverges (status : string) :
  unterminated status = true ->
  forall fuel : nat, getStatus fuel status = None.
Proof.
  intros Hlast fuel. apply getStatus_loop_unterminated; [assumption |].
  unfold unterminated, last_char in Hlast.
  destruct (String.length status); [discriminate | lia].
Qed.

Lemma getStatus_unterminated_diverges_witness :
  unterminated "M  a.txt" = true /\
  forall fuel : nat, getStatus fuel "M  a.txt" = None.
Proof.
  split; [reflexivity |].
  apply (getStatus_unterminated_diverges "M  a.txt"). reflexivity.
Defined.

End Divergence.

(** ** The three-way join *)

Section Listeners.

Variable call : nat.

Lemma register_listeners (once : bool) (ee : emitter) (name : string)
    (f : fn) (st : exec_state) :
  es_listeners (register once ee name f st)
  = es_listeners st
    ++ [{| l_emitter := ee; l_name := name; l_fn := f; l_once := once |}].
Proof. reflexivity. Qed.

Lemma register_disposables (once : bool) (ee : emitter) (name : string)
    (f : fn) (st : exec_state) :
  es_disposables (register once ee name f st)
  = es_disposables st ++ [(ee, name, f)].
Proof. reflexivity. Qed.

Lemma register_promises (once : bool) (ee : emitter) (name : string)
    (f : fn) (st : exec_state) :
  es_exit (register once ee name f st) = es_exit st /\
  es_stdout (register once ee name f st) = es_stdout st /\
  es_stderr (register once ee name f st) = es_stderr st /\
  es_bufout (register once ee name f st) = es_bufout st /\
  es_buferr (register once ee name f st) = es_buferr st /\
  es_done (register once ee name f st) = es_done st.
Proof. repeat split. Qed.

(** The listeners attached when [exec] suspends: those already there,
    then the six of the call in the order of their registration. *)
Lemma exec_start_listeners (ls0 : list listener) :
  es_listeners (exec_start call ls0)
  = ls0 ++ [error_listener call; exit_listener call;
            stdout_data_listener call; stdout_close_listener call;
            stderr_data_listener call; stderr_close_listener call].
Proof.
  unfold exec_start. cbv zeta. rewrite !register_listeners.
  cbn [es_listeners]. now rewrite <- !app_assoc.
Qed.

Lemma exec_start_disposables (ls0 : list listener) :
  es_disposables (exec_start call ls0)
  = [ (Child, "error", Closure call RejectExit);
      (Child, "exit", Closure call ResolveExit);
      (ChildStdout, "data", Closure call PushStdout);
      (ChildStdout, "close", Closure call ResolveStdout);
      (ChildStderr, "data", Closure call PushStderr);
      (ChildStderr, "close", Closure call ResolveStderr) ].
Proof.
  unfold exec_start. cbv zeta. rewrite !register_disposables.
  reflexivity.
Qed.

Lemma exec_start_promises (ls0 : list listener) :
  es_exit (exec_start call ls0) = Waiting /\
  es_stdout (exec_start call ls0) = Waiting /\
  es_stderr (exec_start call ls0) = Waiting /\
  es_bufout (exec_start call ls0) = [] /\
  es_buferr (exec_start call ls0) = [].
Proof.
  unfold exec_start. cbv zeta.
  repeat match goal with
         | |- context [register ?o ?ee ?n ?f ?s] =>
             destruct (register_promises o ee n f s)
               as (-> & -> & -> & -> & -> & _)
         end.
  repeat split.
Qed.

Lemma exec_start_done (ls0 : list listener) :
  es_done (exec_start call ls0) = None.
Proof.
  unfold exec_start. cbv zeta.
  repeat match goal with
         | |- context [register ?o ?ee ?n ?f ?s] =>
             destruct (register_promises o ee n f s)
               as (_ & _ & _ & _ & _ & ->)
         end.
  reflexivity.
Qed.

Lemma call_fn_frame (f : fn) (ev : event) (st : exec_state) :
  es_listeners (call_fn call f ev st) = es_listeners st /\
  es_disposables (call_fn call f ev st) = es_disposables st /\
  es_done (call_fn call f ev st) = es_done st.
Proof.
  unfold call_fn. destruct f as [c cb|id]; [|auto].
  destruct (negb (c =? call)%nat); [auto |].
  destruct cb, ev; simpl; auto.
Qed.

Lemma fire_frame (ev : event) (fired : list listener) :
  forall st : exec_state,
    let st' := foldl (fun s l => call_fn call (l_fn l) ev s) st fired in
    es_listeners st' = es_listeners st /\
    es_disposables st' = es_disposables st /\
    es_done st' = es_done st.
Proof.
  induction fired as [|l fired IH]; intros st; simpl; [auto |].
  destruct (IH (call_fn call (l_fn l) ev st)) as (H1 & H2 & H3).
  destruct (call_fn_frame (l_fn l) ev st) as (G1 & G2 & G3).
  rewrite H1, H2, H3. auto.
Qed.

(** [emit] detaches the [once] listeners it calls and touches neither
    the other listeners nor the state of the awaiting [exec]. *)
Lemma emit_frame (ev : event) (st : exec_state) :
  es_listeners (emit call ev st)
  = List.filter
      (fun l => negb (same_target (event_emitter ev) (event_name ev) l
                      && l_once l))
      (es_listeners st) /\
  es_disposables (emit call ev st) = es_disposables st /\
  es_done (emit call ev st) = es_done st.
Proof.
  unfold emit.
  match goal with
  | |- context [foldl ?f ?s ?l] =>
      destruct (fire_frame ev l s) as (H1 & H2 & H3)
  end.
  cbv zeta in H1, H2, H3. rewrite H1, H2, H3. auto.
Qed.

Lemma data_listeners_step (ev : event) (st : exec_state) :
  data_listeners_attached call st ->
  data_listeners_attached call (resume (emit call ev st)).
Proof.
  unfold data_listeners_attached. intros Hst.
  destruct (emit_frame ev st) as (Hls & _ & Hdone).
  assert (Hkeep : es_done st = None \/ (exists e, es_done st = Some (inl e)) ->
                  In (stdout_data_listener call)
                     (es_listeners (emit call ev st)) /\
                  In (stderr_data_listener call)
                     (es_listeners (emit call ev st))).
  { intros Hcase. rewrite Hls.
    assert (Hin : In (stdout_data_listener call) (es_listeners st) /\
                  In (stderr_data_listener call) (es_listeners st)).
    { destruct Hcase as [E|[e E]]; rewrite E in Hst; exact Hst. }
    destruct Hin as [Hout Herr].
    split; apply filter_In; (split; [assumption |]);
      simpl; now rewrite andb_false_r. }
  unfold resume. rewrite Hdone.
  destruct (es_done st) as [[e|r]|] eqn:Hd.
  - rewrite Hdone. apply Hkeep. eauto.
  - now rewrite Hdone.
  - destruct (es_exit (emit call ev st)) as [|code|err]; simpl.
    + rewrite Hdone. apply Hkeep. auto.
    + destruct (es_stdout (emit call ev st)) as [|out|?]; simpl;
        try (rewrite Hdone; apply Hkeep; auto).
      destruct (es_stderr (emit call ev st)) as [|e|?]; simpl;
        try (rewrite Hdone; apply Hkeep; auto).
      exact I.
    + apply Hkeep. auto.
Qed.

Lemma data_listeners_run (trace : list event) :
  forall st : exec_state,
    data_listeners_attached call st ->
    data_listeners_attached call
      (foldl (fun s ev => resume (emit call ev s)) st trace).
Proof.
  induction trace as [|ev trace IH]; intros st Hst; simpl; [assumption |].
  apply IH. now apply data_listeners_step.
Qed.

Lemma data_listeners_start (ls0 : list listener) :
  data_listeners_attached call (exec_start call ls0).
Proof.
  unfold data_listeners_attached.
  rewrite exec_start_done, exec_start_listeners.
  split; apply in_app_iff; right; simpl; tauto.
Qed.

(** C9, the failing case. Whenever the join is rejected, that is,
    whenever the child emits ['error'] before ['exit'], [exec] is left
    without [dispose]: the two ['data'] listeners the call attached to
    the output streams are still attached afterwards, whatever else the
    child emits. *)
Theorem exec_rejected_keeps_listeners (ls0 : list listener)
    (trace : list event) (r : rejection) :
  exec_outcome (exec call ls0 trace) = Rejected r ->
  In (stdout_data_listener call)
     (own_listeners call (es_listeners (exec call ls0 trace))) /\
  In (stderr_data_listener call)
     (own_listeners call (es_listeners (exec call ls0 trace))).
Proof.
  intros Hout.
  pose proof (data_listeners_run trace _ (data_listeners_start ls0)) as H.
  fold (exec call ls0 trace) in H.
  unfold data_listeners_attached in H. unfold exec_outcome in Hout.
  destruct (es_done (exec call ls0 trace)) as [[e|x]|]; try discriminate.
  destruct H as [H1 H2]. unfold own_listeners.
  split; apply filter_In; (split; [assumption |]);
    unfold owned_by; simpl; apply Nat.eqb_refl.
Qed.

End Listeners.

Lemma exec_rejected_keeps_listeners_witness :
  exec_outcome (exec 7 [] [ChildError "spawn git ENOENT";
                           StdoutClose; StderrClose])
  = Rejected (RejError "spawn git ENOENT") /\
  In (stdout_data_listener 7)
     (own_listeners 7
        (es_listeners (exec 7 [] [ChildError "spawn git ENOENT";
                                  StdoutClose; StderrClose])))
  /\
  In (stderr_data_listener 7)
     (own_listeners 7
        (es_listeners (exec 7 [] [ChildError "spawn git ENOENT";
                                  StdoutClose; StderrClose]))).
Proof.
  split; [reflexivity |].
  apply (exec_rejected_keeps_listeners 7 []
           [ChildError "spawn git ENOENT"; StdoutClose; StderrClose]
           (RejError "spawn git ENOENT")).
  reflexivity.
Defined.

Section Release.

Variable call : nat.

Lemma filter_filter_length_le {A} (q g : A -> bool) (l : list A) :
  length (List.filter q (List.filter g l)) <= length (List.filter q l).
Proof.
  induction l as [|a l IH]; simpl; [lia |].
  destruct (g a); simpl; destruct (q a); simpl; lia.
Qed.

Lemma remove_first_count (p : listener -> bool) (ls : list listener) :
  length (List.filter p (remove_first p ls))
  = pred (length (List.filter p ls)).
Proof.
  induction ls as [|l ls IH]; simpl; [reflexivity |].
  destruct (p l) eqn:Hp; simpl; [reflexivity |].
  now rewrite Hp.
Qed.

Lemma remove_first_count_le (p q : listener -> bool) (ls : list listener) :
  length (List.filter q (remove_first p ls)) <= length (List.filter q ls).
Proof.
  induction ls as [|l ls IH]; simpl; [lia |].
  destruct (p l); simpl; destruct (q l); simpl; lia.
Qed.

Lemma remove_first_In (p : listener -> bool) (ls : list listener)
    (l : listener) :
  In l (remove_first p ls) -> In l ls.
Proof.
  induction ls as [|l' ls IH]; simpl; [tauto |].
  destruct (p l'); simpl; tauto.
Qed.

Lemma filter_rev_length (q : listener -> bool) (ls : list listener) :
  length (List.filter q (rev ls)) = length (List.filter q ls).
Proof.
  induction ls as [|l ls IH]; simpl; [reflexivity |].
  rewrite List.filter_app, length_app, IH. simpl.
  destruct (q l); simpl; lia.
Qed.

Lemma removeListener_count (d : emitter * string * fn)
    (ls : list listener) :
  count_matching d
    (removeListener (fst (fst d)) (snd (fst d)) (snd d) ls)
  = pred (count_matching d ls).
Proof.
  destruct d as [[ee name] f]. unfold count_matching, removeListener.
  simpl fst; simpl snd.
  rewrite filter_rev_length.
  change (matches (ee, name, f)) with (same_listener ee name f).
  now rewrite remove_first_count, filter_rev_length.
Qed.

Lemma removeListener_count_le (d : emitter * string * fn)
    (ee : emitter) (name : string) (f : fn) (ls : list listener) :
  count_matching d (removeListener ee name f ls) <= count_matching d ls.
Proof.
  unfold count_matching, removeListener.
  rewrite filter_rev_length.
  etransitivity; [apply remove_first_count_le |].
  now rewrite filter_rev_length.
Qed.

Lemma removeListener_In (ee : emitter) (name : string) (f : fn)
    (ls : list listener) (l : listener) :
  In l (removeListener ee name f ls) -> In l ls.
Proof.
  unfold removeListener. intros H.
  apply (proj2 (in_rev _ _)) in H. apply remove_first_In in H.
  now apply (proj2 (in_rev _ _)) in H.
Qed.

Lemma dispose_In (ds : list (emitter * string * fn)) :
  forall (ls : list listener) (l : listener),
    In l (dispose ds ls) -> In l ls.
Proof.
  induction ds as [|[[ee name] f] ds IH]; intros ls l; simpl; [tauto |].
  intros H. apply IH in H. now apply removeListener_In in H.
Qed.

Lemma dispose_count_le (d : emitter * string * fn)
    (ds : list (emitter * string * fn)) :
  forall ls : list listener,
    count_matching d (dispose ds ls) <= count_matching d ls.
Proof.
  induction ds as [|[[ee name] f] ds IH]; intros ls; simpl; [lia |].
  etransitivity; [apply IH | apply removeListener_count_le].
Qed.

(** After [dispose], a registration that was attached at most once is
    attached no more. *)
Lemma dispose_count_zero (d : emitter * string * fn)
    (ds : list (emitter * string * fn)) :
  forall ls : list listener,
    In d ds ->
    count_matching d ls <= 1 ->
    count_matching d (dispose ds ls) = 0.
Proof.
  induction ds as [|d' ds IH]; intros ls Hin Hle; [destruct Hin |].
  destruct d' as [[ee name] f]. simpl.
  destruct Hin as [<-|Hin].
  - pose proof (removeListener_count (ee, name, f) ls) as Hrm.
    simpl fst in Hrm; simpl snd in Hrm.
    pose proof (dispose_count_le (ee, name, f) ds
                  (removeListener ee name f ls)) as Hds.
    lia.
  - apply IH; [assumption |].
    pose proof (removeListener_count_le d ee name f ls). lia.
Qed.

Lemma tidy_dispose (ds : list (emitter * string * fn))
    (ls : list listener) :
  tidy call ds ls -> own_listeners call (dispose ds ls) = [].
Proof.
  intros [Hcount Hown]. unfold own_listeners.
  destruct (List.filter (owned_by call) (dispose ds ls)) as [|l rest] eqn:E;
    [reflexivity | exfalso].
  assert (Hl : In l (List.filter (owned_by call) (dispose ds ls))).
  { rewrite E. now left. }
  apply filter_In in Hl as [Hin Howned].
  destruct (Hown l (dispose_In ds ls l Hin) Howned) as (d & Hd & Hm).
  pose proof (dispose_count_zero d ds ls Hd (Hcount d Hd)) as Hzero.
  unfold count_matching in Hzero.
  assert (Hlm : In l (List.filter (matches d) (dispose ds ls))).
  { apply filter_In. now split. }
  destruct (List.filter (matches d) (dispose ds ls)); [destruct Hlm |].
  discriminate.
Qed.

Lemma tidy_filter (ds : list (emitter * string * fn)) (g : listener -> bool)
    (ls : list listener) :
  tidy call ds ls -> tidy call ds (List.filter g ls).
Proof.
  intros [Hcount Hown]. split.
  - intros d Hd. specialize (Hcount d Hd). unfold count_matching in *.
    pose proof (filter_filter_length_le (matches d) g ls). lia.
  - intros l Hl. apply filter_In in Hl as [Hl _]. now apply Hown.
Qed.

Lemma own_listeners_filter (g : listener -> bool) (ls : list listener) :
  own_listeners call ls = [] ->
  own_listeners call (List.filter g ls) = [].
Proof.
  unfold own_listeners. intros H.
  pose proof (filter_filter_length_le (owned_by call) g ls) as Hle.
  rewrite H in Hle. simpl in Hle.
  destruct (List.filter (owned_by call) (List.filter g ls));
    [reflexivity | simpl in Hle; lia].
Qed.

Lemma matches_owned (cb : callback) (ee : emitter) (name : string)
    (l : listener) :
  matches (ee, name, Closure call cb) l = true -> owned_by call l = true.
Proof.
  unfold matches, same_listener, owned_by.
  intros H. apply andb_true_iff in H as [_ H].
  apply bool_decide_eq_true in H. rewrite H. apply Nat.eqb_refl.
Qed.

Lemma count_matching_fresh (cb : callback) (ee : emitter) (name : string)
    (ls0 : list listener) :
  own_listeners call ls0 = [] ->
  count_matching (ee, name, Closure call cb) ls0 = 0.
Proof.
  unfold count_matching, own_listeners. intros Hfresh.
  destruct (List.filter (matches (ee, name, Closure call cb)) ls0)
    as [|l rest] eqn:E; [reflexivity | exfalso].
  assert (Hl : In l (List.filter (matches (ee, name, Closure call cb)) ls0)).
  { rewrite E. now left. }
  apply filter_In in Hl as [Hin Hm]. apply matches_owned in Hm.
  assert (Hl : In l (List.filter (owned_by call) ls0)).
  { apply filter_In. now split. }
  rewrite Hfresh in Hl. destruct Hl.
Qed.

(** When [exec] suspends, each of its six registrations is attached
    exactly once, provided its closures are fresh. *)
Lemma tidy_start (ls0 : list listener) :
  own_listeners call ls0 = [] ->
  tidy call (es_disposables (exec_start call ls0))
       (es_listeners (exec_start call ls0)).
Proof.
  intros Hfresh.
  rewrite exec_start_listeners, exec_start_disposables. split.
  - intros d Hd. unfold count_matching.
    rewrite List.filter_app, length_app.
    simpl in Hd.
    repeat (destruct Hd as [<-|Hd];
            [match goal with
             | |- context [List.filter
                             (matches (?ee, ?name, Closure call ?cb)) ls0] =>
                 pose proof (count_matching_fresh cb ee name ls0 Hfresh) as Hz;
                 unfold count_matching in Hz; rewrite Hz
             end;
             unfold matches, same_listener, same_target; simpl;
             rewrite ?bool_decide_eq_true_2 by reflexivity;
             simpl; lia |]).
    destruct Hd.
  - intros l Hl Howned. apply in_app_iff in Hl as [Hl|Hl].
    + exfalso.
      assert (Hin : In l (own_listeners call ls0)).
      { apply filter_In. now split. }
      rewrite Hfresh in Hin. destruct Hin.
    + simpl in Hl. exists (l_emitter l, l_name l, l_fn l).
      repeat (destruct Hl as [<-|Hl];
              [split;
               [simpl; tauto
               | unfold matches, same_listener, same_target; simpl;
                 rewrite ?bool_decide_eq_true_2 by reflexivity;
                 reflexivity] |]).
      destruct Hl.
Qed.

Lemma listeners_scoped_step (ls0 : list listener) (ev : event)
    (st : exec_state) :
  listeners_scoped call ls0 st ->
  listeners_scoped call ls0 (resume (emit call ev st)).
Proof.
  unfold listeners_scoped. intros [Hds Hst].
  destruct (emit_frame call ev st) as (Hls & Hds' & Hdone).
  unfold resume. rewrite Hdone.
  destruct (es_done st) as [[e|r]|] eqn:Hd.
  - rewrite Hds', Hdone. now split.
  - rewrite Hds', Hdone, Hls. split; [assumption |].
    now apply own_listeners_filter.
  - assert (Htidy : tidy call (es_disposables (emit call ev st))
                         (es_listeners (emit call ev st))).
    { rewrite Hds', Hls. now apply tidy_filter. }
    destruct (es_exit (emit call ev st)) as [|code|err]; simpl.
    + rewrite Hds', Hdone. split; [assumption |]. now rewrite <- Hds'.
    + destruct (es_stdout (emit call ev st)) as [|out|?]; simpl;
        try (rewrite Hds', Hdone; split; [assumption |]; now rewrite <- Hds').
      destruct (es_stderr (emit call ev st)) as [|e|?]; simpl;
        try (rewrite Hds', Hdone; split; [assumption |]; now rewrite <- Hds').
      rewrite Hds'. split; [assumption |].
      rewrite <- Hds'. now apply tidy_dispose.
    + rewrite Hds'. now split.
Qed.

Lemma listeners_scoped_run (ls0 : list listener) (trace : list event) :
  forall st : exec_state,
    listeners_scoped call ls0 st ->
    listeners_scoped call ls0
      (foldl (fun s ev => resume (emit call ev s)) st trace).
Proof.
  induction trace as [|ev trace IH]; intros st Hst; simpl; [assumption |].
  apply IH. now apply listeners_scoped_step.
Qed.

(** On the success path the registrations are scoped to the call: once the
    join has resolved and [exec] has returned, no listener the call
    registered is attached any more, whatever the child emits later. The
    closures of the call are its own: none was attached before. *)
Theorem exec_resolved_releases_listeners (ls0 : list listener)
    (trace : list event) (result : IExecutionResult) :
  own_listeners call ls0 = [] ->
  exec_outcome (exec call ls0 trace) = Resolved result ->
  own_listeners call (es_listeners (exec call ls0 trace)) = [].
Proof.
  intros Hfresh Hout.
  assert (Hstart : listeners_scoped call ls0 (exec_start call ls0)).
  { split; [reflexivity |]. now apply tidy_start. }
  pose proof (listeners_scoped_run ls0 trace _ Hstart) as [_ H].
  fold (exec call ls0 trace) in H. unfold exec_outcome in Hout.
  destruct (es_done (exec call ls0 trace)) as [[e|x]|]; try discriminate.
  exact H.
Qed.

End Release.

Lemma exec_resolved_releases_listeners_witness :
  let foreign := {| l_emitter := ChildStdout; l_name := "data";
                    l_fn := External 1; l_once := false |} in
  let trace := [StdoutData "M  a.txt"; ChildExit (Some 0%Z); StdoutClose;
                StderrClose; StdoutData "late"] in
  own_listeners 3 (es_listeners (exec 3 [foreign] trace)) = [].
Proof.
  intros foreign trace.
  apply (exec_resolved_releases_listeners 3 [foreign] trace
           {| exitCode := Some 0%Z; stdout := "M  a.txt"; stderr := "" |});
    reflexivity.
Defined.

Section Results.

Variable call : nat.

Lemma call_fn_cases (f : fn) (ev : event) (st : exec_state) :
  call_fn call f ev st
  = if bool_decide (f = Closure call (handler_of ev))
    then effect call ev st
    else st.
Proof.
  destruct (decide (f = Closure call (handler_of ev))) as [->|Hne].
  - now rewrite bool_decide_eq_true_2.
  - rewrite bool_decide_eq_false_2 by assumption.
    unfold call_fn. destruct f as [c cb|id]; [|reflexivity].
    destruct (Nat.eqb_spec c call) as [->|Hc]; [|reflexivity]. simpl.
    destruct cb, ev; try reflexivity; exfalso; apply Hne; reflexivity.
Qed.

(** Calling the listeners [fired] applies the call's own closure as many
    times as it occurs among them. *)
Lemma fire_iter (ev : event) (fired : list listener) :
  forall st : exec_state,
    foldl (fun s l => call_fn call (l_fn l) ev s) st fired
    = Nat.iter
        (length (List.filter
                   (fun l => bool_decide
                               (l_fn l = Closure call (handler_of ev)))
                   fired))
        (effect call ev) st.
Proof.
  induction fired as [|l fired IH]; intros st; simpl; [reflexivity |].
  rewrite IH, call_fn_cases.
  destruct (bool_decide (l_fn l = Closure call (handler_of ev))); simpl;
    [|reflexivity].
  now rewrite <- Nat.iter_succ_r.
Qed.

Lemma filter_target_count (ee : emitter) (name : string) (f : fn)
    (ls : list listener) :
  length (List.filter (fun l => bool_decide (l_fn l = f))
                      (List.filter (same_target ee name) ls))
  = count_matching (ee, name, f) ls.
Proof.
  unfold count_matching, matches, same_listener.
  induction ls as [|l ls IH]; simpl; [reflexivity |].
  destruct (same_target ee name l); simpl; [|exact IH].
  destruct (bool_decide (l_fn l = f)); simpl; now rewrite IH.
Qed.

Lemma emit_iter (ev : event) (st : exec_state) :
  emit call ev st
  = Nat.iter (count_matching (registration_of call ev) (es_listeners st))
             (effect call ev) (kept_listeners ev st).
Proof.
  unfold emit. rewrite fire_iter, filter_target_count. reflexivity.
Qed.

Lemma resolve_resolve {A} (a : A) (p : promise A) :
  resolve a (resolve a p) = resolve a p.
Proof. now destruct p. Qed.

Lemma reject_reject {A} (e : string) (p : promise A) :
  reject e (reject e p) = reject e p.
Proof. now destruct p. Qed.

(** The promises and buffers after the call's own closure for [ev] has
    been called [n] times. *)
Lemma iter_effect_fields (ev : event) (n : nat) (s0 : exec_state) :
  let s := Nat.iter n (effect call ev) s0 in
  es_exit s
  = match ev, n with
    | ChildError e, S _ => reject e (es_exit s0)
    | ChildExit c, S _ => resolve c (es_exit s0)
    | _, _ => es_exit s0
    end /\
  es_stdout s
  = match ev, n with
    | StdoutClose, S _ => resolve (join (es_bufout s0)) (es_stdout s0)
    | _, _ => es_stdout s0
    end /\
  es_bufout s
  = match ev with
    | StdoutData b => es_bufout s0 ++ repeat b n
    | _ => es_bufout s0
    end /\
  es_stderr s
  = match ev, n with
    | StderrClose, S _ => resolve (join (es_buferr s0)) (es_stderr s0)
    | _, _ => es_stderr s0
    end /\
  es_buferr s
  = match ev with
    | StderrData b => es_buferr s0 ++ repeat b n
    | _ => es_buferr s0
    end.
Proof.
  induction n as [|n IH]; cbv zeta.
  - simpl. destruct ev; rewrite ?app_nil_r; auto.
  - cbv zeta in IH. destruct IH as (H1 & H2 & H3 & H4 & H5).
    rewrite Nat.iter_succ.
    set (s := Nat.iter n (effect call ev) s0) in *.
    unfold effect, call_fn. rewrite Nat.eqb_refl. simpl negb. cbv iota.
    destruct ev; simpl; rewrite H1, H2, H3, H4, H5;
      destruct n; simpl;
      rewrite ?resolve_resolve, ?reject_reject, ?app_nil_r,
              <- ?app_assoc;
      repeat split; try reflexivity;
      try (f_equal; simpl; now rewrite <- repeat_cons).
Qed.

Lemma kept_In (ev : event) (st : exec_state) (l : listener) :
  In l (es_listeners st) ->
  same_target (event_emitter ev) (event_name ev) l && l_once l = false ->
  In l (es_listeners (emit call ev st)).
Proof.
  intros Hin Hkeep. destruct (emit_frame call ev st) as (-> & _ & _).
  apply filter_In. split; [assumption |]. now rewrite Hkeep.
Qed.

Lemma In_count_matching (d : emitter * string * fn) (l : listener)
    (ls : list listener) :
  In l ls -> matches d l = true -> 1 <= count_matching d ls.
Proof.
  intros Hin Hm. unfold count_matching.
  assert (H : In l (List.filter (matches d) ls)) by now apply filter_In.
  destruct (List.filter (matches d) ls); [destruct H | simpl; lia].
Qed.

Lemma first_exit_snoc (seen : list event) (ev : event) :
  first_exit (seen ++ [ev])
  = match first_exit seen with
    | Some x => Some x
    | None => first_exit [ev]
    end.
Proof.
  induction seen as [|e seen IH]; [reflexivity |].
  destruct e; simpl; auto.
Qed.

Lemma stdout_closed_snoc (seen : list event) (ev : event) :
  stdout_closed (seen ++ [ev]) = stdout_closed seen || stdout_closed [ev].
Proof. induction seen as [|e seen IH]; [reflexivity |]. destruct e; auto. Qed.

Lemma stdout_chunks_snoc (seen : list event) (ev : event) :
  stdout_chunks (seen ++ [ev])
  = if stdout_closed seen then stdout_chunks seen
    else stdout_chunks seen ++ stdout_chunks [ev].
Proof.
  induction seen as [|e seen IH]; [reflexivity |].
  destruct e; simpl; auto. rewrite IH. now destruct (stdout_closed seen).
Qed.

Lemma stderr_closed_snoc (seen : list event) (ev : event) :
  stderr_closed (seen ++ [ev]) = stderr_closed seen || stderr_closed [ev].
Proof. induction seen as [|e seen IH]; [reflexivity |]. destruct e; auto. Qed.

Lemma stderr_chunks_snoc (seen : list event) (ev : event) :
  stderr_chunks (seen ++ [ev])
  = if stderr_closed seen then stderr_chunks seen
    else stderr_chunks seen ++ stderr_chunks [ev].
Proof.
  induction seen as [|e seen IH]; [reflexivity |].
  destruct e; simpl; auto. rewrite IH. now destruct (stderr_closed seen).
Qed.

(** One event keeps the promises of a suspended [exec] in step with the
    events seen. *)
Lemma tracking_emit (ls0 : list listener) (seen : list event) (ev : event)
    (st : exec_state) :
  tidy call (es_disposables (exec_start call ls0)) (es_listeners st) ->
  In (stdout_data_listener call) (es_listeners st) ->
  In (stderr_data_listener call) (es_listeners st) ->
  tracking call seen st ->
  tracking call (seen ++ [ev]) (emit call ev st).
Proof.
  intros [Hcount _] Hdout Hderr (Hexit & Hout & Herr).
  pose proof (iter_effect_fields ev
                (count_matching (registration_of call ev) (es_listeners st))
                (kept_listeners ev st)) as Hf.
  cbv zeta in Hf. rewrite <- emit_iter in Hf.
  change (es_exit (kept_listeners ev st)) with (es_exit st) in Hf.
  change (es_stdout (kept_listeners ev st)) with (es_stdout st) in Hf.
  change (es_stderr (kept_listeners ev st)) with (es_stderr st) in Hf.
  change (es_bufout (kept_listeners ev st)) with (es_bufout st) in Hf.
  change (es_buferr (kept_listeners ev st)) with (es_buferr st) in Hf.
  destruct Hf as (F1 & F2 & F3 & F4 & F5).
  assert (Hge : forall l, In l (es_listeners st) ->
                  matches (registration_of call ev) l = true ->
                  exists m, count_matching (registration_of call ev)
                              (es_listeners st) = S m).
  { intros l Hl Hm.
    pose proof (In_count_matching _ l _ Hl Hm) as H1.
    destruct (count_matching (registration_of call ev) (es_listeners st));
      [lia | eauto]. }
  assert (Hone : forall l, In (registration_of call ev)
                             (es_disposables (exec_start call ls0)) ->
                  In l (es_listeners st) ->
                  matches (registration_of call ev) l = true ->
                  count_matching (registration_of call ev) (es_listeners st)
                  = 1).
  { intros l Hreg Hl Hm.
    pose proof (In_count_matching _ l _ Hl Hm).
    pose proof (Hcount _ Hreg). lia. }
  assert (Hself : forall cb, bool_decide (Closure call cb = Closure call cb)
                             = true).
  { intros cb. now apply bool_decide_eq_true_2. }
  unfold tracking. repeat split.
  - rewrite first_exit_snoc, F1.
    destruct (first_exit seen) as [[e|c]|].
    + rewrite Hexit.
      now destruct
        (count_matching (registration_of call ev) (es_listeners st)), ev.
    + rewrite Hexit.
      now destruct
        (count_matching (registration_of call ev) (es_listeners st)), ev.
    + destruct Hexit as (Hw & He & Hx). rewrite Hw.
      destruct ev; simpl first_exit; cbv iota;
        try (split; [reflexivity |];
             split; apply kept_In; (assumption || reflexivity)).
      * destruct (Hge _ He) as [m ->]; [|reflexivity].
        unfold matches, registration_of, same_listener, same_target.
        simpl. now rewrite Hself.
      * destruct (Hge _ Hx) as [m ->]; [|reflexivity].
        unfold matches, registration_of, same_listener, same_target.
        simpl. now rewrite Hself.
  - unfold stream_tracked in *.
    rewrite stdout_closed_snoc, stdout_chunks_snoc, F2, F3.
    destruct (stdout_closed seen); simpl orb; cbv iota.
    + rewrite Hout.
      now destruct
        (count_matching (registration_of call ev) (es_listeners st)), ev.
    + destruct Hout as (Hw & Hb & Hc). rewrite Hw, Hb.
      destruct ev; simpl stdout_closed; simpl stdout_chunks; cbv iota;
        rewrite ?app_nil_r;
        try (split; [reflexivity |]; split; [reflexivity |];
             apply kept_In; (assumption || reflexivity)).
      * rewrite (Hone (stdout_data_listener call)); try assumption.
        -- split; [reflexivity |]. split; [reflexivity |].
           apply kept_In; (assumption || reflexivity).
        -- rewrite exec_start_disposables. simpl. tauto.
        -- unfold matches, registration_of, same_listener, same_target.
           simpl. now rewrite Hself.
      * destruct (Hge _ Hc) as [m ->]; [|reflexivity].
        unfold matches, registration_of, same_listener, same_target.
        simpl. now rewrite Hself.
  - unfold stream_tracked in *.
    rewrite stderr_closed_snoc, stderr_chunks_snoc, F4, F5.
    destruct (stderr_closed seen); simpl orb; cbv iota.
    + rewrite Herr.
      now destruct
        (count_matching (registration_of call ev) (es_listeners st)), ev.
    + destruct Herr as (Hw & Hb & Hc). rewrite Hw, Hb.
      destruct ev; simpl stderr_closed; simpl stderr_chunks; cbv iota;
        rewrite ?app_nil_r;
        try (split; [reflexivity |]; split; [reflexivity |];
             apply kept_In; (assumption || reflexivity)).
      * rewrite (Hone (stderr_data_listener call)); try assumption.
        -- split; [reflexivity |]. split; [reflexivity |].
           apply kept_In; (assumption || reflexivity).
        -- rewrite exec_start_disposables. simpl. tauto.
        -- unfold matches, registration_of, same_listener, same_target.
           simpl. now rewrite Hself.
      * destruct (Hge _ Hc) as [m ->]; [|reflexivity].
        unfold matches, registration_of, same_listener, same_target.
        simpl. now rewrite Hself.
Qed.

Lemma result_of_trace_snoc (seen : list event) (ev : event)
    (r : IExecutionResult) :
  result_of_trace seen r -> result_of_trace (seen ++ [ev]) r.
Proof.
  intros (H1 & H2 & H3 & H4 & H5). unfold result_of_trace.
  rewrite first_exit_snoc, stdout_closed_snoc, stdout_chunks_snoc,
          stderr_closed_snoc, stderr_chunks_snoc, H1, H2, H4.
  auto.
Qed.

Lemma results_tracked_step (ls0 : list listener) (seen : list event)
    (ev : event) (st : exec_state) :
  listeners_scoped call ls0 st ->
  data_listeners_attached call st ->
  results_tracked call seen st ->
  results_tracked call (seen ++ [ev]) (resume (emit call ev st)).
Proof.
  intros [Hds Hscoped] Hdata Htracked.
  destruct (emit_frame call ev st) as (_ & _ & Hdone).
  unfold results_tracked, data_listeners_attached in *.
  unfold resume. rewrite Hdone.
  destruct (es_done st) as [[e|r]|] eqn:Hd.
  - now rewrite Hdone.
  - rewrite Hdone. now apply result_of_trace_snoc.
  - rewrite Hds in Hscoped. destruct Hdata as [Hout Herr].
    pose proof (tracking_emit ls0 seen ev st Hscoped Hout Herr Htracked)
      as (Texit & Tout & Terr).
    destruct (es_exit (emit call ev st)) as [|code|err] eqn:Eexit; simpl.
    + rewrite Hdone. unfold tracking. now rewrite Eexit.
    + destruct (es_stdout (emit call ev st)) as [|out|?] eqn:Eout; simpl;
        try (rewrite Hdone; unfold tracking; now rewrite Eexit, Eout).
      destruct (es_stderr (emit call ev st)) as [|e|?] eqn:Eerr; simpl;
        try (rewrite Hdone; unfold tracking; now rewrite Eexit, Eout, Eerr).
      unfold result_of_trace, stream_tracked in *. simpl.
      destruct (first_exit (seen ++ [ev])) as [[x|c]|];
        [discriminate | | destruct Texit; discriminate].
      destruct (stdout_closed (seen ++ [ev]));
        [|destruct Tout; discriminate].
      destruct (stderr_closed (seen ++ [ev]));
        [|destruct Terr; discriminate].
      injection Texit as <-. injection Tout as <-. injection Terr as <-.
      auto.
    + exact I.
Qed.

Lemma results_tracked_start (ls0 : list listener) :
  results_tracked call [] (exec_start call ls0).
Proof.
  unfold results_tracked, tracking, stream_tracked.
  rewrite exec_start_done, exec_start_listeners.
  destruct (exec_start_promises call ls0) as (-> & -> & -> & -> & ->).
  simpl first_exit. simpl stdout_closed. simpl stderr_closed.
  simpl stdout_chunks. simpl stderr_chunks. cbv iota.
  repeat split; apply in_app_iff; right; simpl; tauto.
Qed.

Lemma exec_run_tracked (ls0 : list listener) (trace : list event) :
  forall (seen : list event) (st : exec_state),
    listeners_scoped call ls0 st ->
    data_listeners_attached call st ->
    results_tracked call seen st ->
    results_tracked call (seen ++ trace)
      (foldl (fun s ev => resume (emit call ev s)) st trace).
Proof.
  induction trace as [|ev trace IH]; intros seen st Hs Hd Hr; simpl.
  - now rewrite app_nil_r.
  - replace (seen ++ ev :: trace) with ((seen ++ [ev]) ++ trace)
      by now rewrite <- app_assoc.
    apply IH.
    + now apply listeners_scoped_step.
    + now apply data_listeners_step.
    + now apply (results_tracked_step ls0).
Qed.

(** When [exec] returns a result, it is the result of what the child did:
    the exit code is the one of the ['exit'] event, which was not preceded
    by an ['error'] event, and stdout and stderr are the chunks each
    stream delivered until it closed, concatenated in order. *)
Theorem exec_resolved_result (ls0 : list listener) (trace : list event)
    (result : IExecutionResult) :
  own_listeners call ls0 = [] ->
  exec_outcome (exec call ls0 trace) = Resolved result ->
  first_exit trace = Some (inr (exitCode result)) /\
  stdout result = join (stdout_chunks trace) /\
  stderr result = join (stderr_chunks trace).
Proof.
  intros Hfresh Hout.
  assert (Hstart : listeners_scoped call ls0 (exec_start call ls0)).
  { split; [reflexivity |]. now apply tidy_start. }
  pose proof (exec_run_tracked ls0 trace [] _ Hstart
                (data_listeners_start call ls0)
                (results_tracked_start ls0)) as H.
  simpl app in H. fold (exec call ls0 trace) in H.
  unfold results_tracked in H. unfold exec_outcome in Hout.
  destruct (es_done (exec call ls0 trace)) as [[e|x]|]; try discriminate.
  injection Hout as ->. destruct H as (H1 & _ & H3 & _ & H5). auto.
Qed.

End Results.

Lemma exec_resolved_result_witness :
  let trace := [StdoutData "user"; StderrData "warning: x";
                StdoutData "@example.org"; ChildExit (Some 0%Z);
                StdoutClose; StderrClose] in
  let result := {| exitCode := Some 0%Z; stdout := "user@example.org";
                   stderr := "warning: x" |} in
  first_exit trace = Some (inr (exitCode result)) /\
  stdout result = join (stdout_chunks trace) /\
  stderr result = join (stderr_chunks trace).
Proof.
  intros trace result.
  apply (exec_resolved_result 1 [] trace result); reflexivity.
Defined.

(** ** The process runner *)

Section Classification.

(** The chain of tests in [_exec] is a first-match search through the
    priority table. *)
Lemma classify_first_match (text : string) :
  classify text = first_match priority_table text.
Proof.
  unfold classify, priority_table. simpl first_match.
  rewrite !orb_false_r. reflexivity.
Qed.

Lemma existsb_contains_occurs (phrases : list string) (text : string) :
  existsb (fun p => contains p text) phrases = true
  <-> exists phrase, In phrase phrases /\ occurs phrase text.
Proof.
  rewrite existsb_exists. unfold occurs.
  split; intros (phrase & Hin & H); exists phrase; split; trivial;
    now apply contains_occurs.
Qed.

(** The search with the test of the code finds the kind the table selects,
    and that kind only. *)
Lemma first_match_selects (table : list (GitErrorCodes * list string))
    (text : string) (kind : option GitErrorCodes) :
  selects table text kind <-> first_match table text = kind.
Proof.
  split.
  - induction 1 as [text|kind phrases table text phrase Hin Hocc
                   |kind phrases table text k Hnone _ IH]; simpl.
    + reflexivity.
    + replace (existsb (fun p => contains p text) phrases) with true;
        [reflexivity |].
      symmetry. apply existsb_contains_occurs. eauto.
    + destruct (existsb (fun p => contains p text) phrases) eqn:E;
        [|exact IH].
      apply existsb_contains_occurs in E as (phrase & Hin & Hocc).
      now destruct (Hnone phrase Hin).
  - revert kind. induction table as [|[kind' phrases] table IH];
      intros kind; simpl.
    + intros <-. constructor.
    + destruct (existsb (fun p => contains p text) phrases) eqn:E.
      * intros <-.
        apply existsb_contains_occurs in E as (phrase & Hin & Hocc).
        now apply selects_here with phrase.
      * intros H. apply selects_next; [|now apply IH].
        intros phrase Hin Hocc.
        assert (existsb (fun p => contains p text) phrases = true) as E'
          by (apply existsb_contains_occurs; eauto).
        congruence.
Qed.

Lemma classify_selects (text : string) (kind : option GitErrorCodes) :
  selects priority_table text kind <-> classify text = kind.
Proof. now rewrite classify_first_match, first_match_selects. Qed.

(** Where the streams [_exec] needs are there, the call goes on to the
    join. *)
Lemma Git__exec_ready (git : Git) (penv : gmap string string)
    (args : list jsval) (o : options) (call : nat) (ls0 : list listener)
    (trace : list event) :
  String.eqb (gitPath git) "" = false ->
  streams_ready o = true ->
  Git__exec git penv args o call ls0 trace
  = match exec_outcome (exec call ls0 trace) with
    | Resolved result => check_result args result
    | Rejected r => Rejected r
    | Pending => Pending
    end.
Proof.
  intros Hgit Hready. unfold Git__exec, Git_spawn. rewrite Hgit.
  cbv zeta. simpl sp_options. simpl o_stdio.
  unfold streams_ready in Hready. cbv zeta in Hready.
  apply andb_true_iff in Hready as [Hready Herr].
  apply andb_true_iff in Hready as [Hin Hout].
  unfold exec_child. rewrite Hout, Herr. simpl andb. cbv iota.
  destruct (input_given o); simpl in Hin |- *; [|reflexivity].
  now rewrite Hin.
Qed.


(** C7. When the child has exited with a non-zero code, the call is
    rejected with a [GitError] whose kind is the one the priority table
    (AuthenticationFailed, NotAGitRepository, BadConfigFile,
    CantCreatePipe, RepositoryNotFound, CantAccessRemote) selects for the
    captured stderr: the kind of the first row one of whose phrases
    occurs in that text, and no kind when no phrase of any row occurs.
    The table selects a kind for every text, and the captured stdout,
    stderr and the exit code are attached to the error in every case. *)
Theorem Git__exec_classifies (git : Git) (penv : gmap string string)
    (args : list jsval) (o : options) (call : nat) (ls0 : list listener)
    (trace : list event) (result : IExecutionResult) (code : Z) :
  String.eqb (gitPath git) "" = false ->
  streams_ready o = true ->
  exec_outcome (exec call ls0 trace) = Resolved result ->
  exitCode result = Some code ->
  code <> 0%Z ->
  (exists kind, selects priority_table (stderr result) kind) /\
  (forall kind : option GitErrorCodes,
     selects priority_table (stderr result) kind ->
     Git__exec git penv args o call ls0 trace
     = Rejected (RejGitError
         {| ge_error := None;
            ge_message := "Failed to execute git";
            ge_stdout := Some (stdout result);
            ge_stderr := Some (stderr result);
            ge_exitCode := Some code;
            ge_gitErrorCode := kind;
            ge_gitCommand := first_arg args |})).
Proof.
  intros Hgit Hready Hexec Hcode Hnz. split.
  - exists (classify (stderr result)). now apply classify_selects.
  - intros kind Hkind. apply classify_selects in Hkind.
    rewrite Git__exec_ready, Hexec by assumption.
    unfold check_result, code_truthy. rewrite Hcode.
    apply Z.eqb_neq in Hnz. rewrite Hnz. simpl negb. cbv iota zeta.
    unfold GitError_new. simpl. now rewrite Hkind.
Qed.

Lemma Git__exec_classifies_witness :
  let text := "fatal: Authentication failed for origin" in
  let trace := [StderrData "fatal: Authentication ";
                StderrData "failed for origin";
                ChildExit (Some 128%Z); StdoutClose; StderrClose] in
  selects priority_table text (Some AuthenticationFailed) /\
  Git__exec {| gitPath := "git"; git_version := "2.11.0" |} ∅
            [JStr "fetch"] no_options 0 [] trace
  = Rejected (RejGitError
      {| ge_error := None;
         ge_message := "Failed to execute git";
         ge_stdout := Some "";
         ge_stderr := Some text;
         ge_exitCode := Some 128%Z;
         ge_gitErrorCode := Some AuthenticationFailed;
         ge_gitCommand := JStr "fetch" |}).
Proof.
  intros text trace.
  assert (Hkind : selects priority_table text (Some AuthenticationFailed)).
  { apply selects_here with "Authentication failed"; [now left |].
    now exists "fatal: ", " for origin". }
  split; [exact Hkind |].
  refine (proj2 (Git__exec_classifies
                   {| gitPath := "git"; git_version := "2.11.0" |} ∅
                   [JStr "fetch"] no_options 0 [] trace
                   {| exitCode := Some 128%Z; stdout := ""; stderr := text |}
                   128 eq_refl eq_refl eq_refl eq_refl _) _ Hkind).
  discriminate.
Defined.

End Classification.

Section Outcomes.



End Outcomes.

Section Environment.

Lemma spawn_env_union (penv : gmap string string)
    (caller : option (gmap string jsval)) (args : list jsval) :
  spawn_env penv caller args
  = fixed_env args ∪ (env_or_empty caller ∪ (JStr <$> penv)).
Proof.
  unfold spawn_env, Object_assign. simpl.
  now rewrite (right_id_L ∅ (∪)).
Qed.

Lemma fixed_env_lookup (args : list jsval) (k : string) :
  fixed_env args !! k
  = if decide (k = LANG) then Some (JStr "en_US.UTF-8")
    else if decide (k = VSCODE_GIT_COMMAND) then Some (first_arg args)
    else None.
Proof.
  unfold fixed_env.
  destruct (decide (k = LANG)) as [->|Hlang].
  - apply lookup_insert_eq.
  - rewrite lookup_insert_ne by congruence.
    destruct (decide (k = VSCODE_GIT_COMMAND)) as [->|Hcmd].
    + apply lookup_insert_eq.
    + rewrite lookup_insert_ne by congruence. apply lookup_empty.
Qed.

(** C2, as stated, fails when the caller overrides a fixed variable: the
    environment of the specification would carry the caller's [LANG],
    the environment [spawn] builds carries the fixed one. *)
Lemma spawn_env_fixed_beats_caller :
  let caller := Some ({[ LANG := JStr "fr_FR.UTF-8" ]} : gmap string jsval) in
  spec_env ∅ caller [JStr "status"] !! LANG = Some (JStr "fr_FR.UTF-8") /\
  spawn_env ∅ caller [JStr "status"] !! LANG = Some (JStr "en_US.UTF-8").
Proof. split; reflexivity. Qed.

(** C2, amended. The environment of the subprocess is the inherited
    environment, overlaid with the caller's overrides, overlaid with the
    two fixed variables: [LANG] is always the fixed locale and
    [VSCODE_GIT_COMMAND] always the first argument, whatever the caller
    and the inherited environment say; every other variable has the
    caller's value when the caller sets it and the inherited value
    otherwise. *)
Theorem spawn_env_lookup (penv : gmap string string)
    (caller : option (gmap string jsval)) (args : list jsval)
    (k : string) :
  spawn_env penv caller args !! k
  = if decide (k = LANG) then Some (JStr "en_US.UTF-8")
    else if decide (k = VSCODE_GIT_COMMAND) then Some (first_arg args)
    else match env_or_empty caller !! k with
         | Some v => Some v
         | None => JStr <$> penv !! k
         end.
Proof.
  rewrite spawn_env_union.
  rewrite lookup_union, fixed_env_lookup.
  destruct (decide (k = LANG)); [apply union_Some_l |].
  destruct (decide (k = VSCODE_GIT_COMMAND)); [apply union_Some_l |].
  rewrite (left_id_L None union), lookup_union, lookup_fmap.
  destruct (env_or_empty caller !! k) as [v|].
  - apply union_Some_l.
  - apply (left_id_L None union).
Qed.

End Environment.

Section RepositoryEnvironment.

Lemma repository_options_env (repo : Repository) (o : options) :
  o_env (repository_options repo o)
  = Some (repo_env repo ∪ env_or_empty (o_env o)).
Proof.
  unfold repository_options, Object_assign. simpl.
  now rewrite (right_id_L ∅ (∪)).
Qed.

(** Through [Repository.exec] the environment of the subprocess is, from
    the strongest to the weakest: the two fixed variables, the environment
    of the repository handle, the [env] of the options, the inherited
    environment. *)
Theorem Repository_request_env (repo : Repository)
    (penv : gmap string string) (args : list jsval) (o : options) :
  String.eqb (gitPath (repo_git repo)) "" = false ->
  exists (request : spawn_request) (env : gmap string jsval),
    Repository_request repo penv args o = inr request /\
    sp_args request = args /\
    o_env (sp_options request) = Some env /\
    forall k : string,
      env !! k
      = if decide (k = LANG) then Some (JStr "en_US.UTF-8")
        else if decide (k = VSCODE_GIT_COMMAND) then Some (first_arg args)
        else match repo_env repo !! k with
             | Some v => Some v
             | None =>
                 match env_or_empty (o_env o) !! k with
                 | Some v => Some v
                 | None => JStr <$> penv !! k
                 end
             end.
Proof.
  intros Hgit. unfold Repository_request, Git_spawn. rewrite Hgit.
  eexists. eexists. split; [reflexivity |]. split; [reflexivity |].
  split; [reflexivity |]. intros k.
  rewrite spawn_env_union, lookup_union, fixed_env_lookup.
  destruct (decide (k = LANG)); [apply union_Some_l |].
  destruct (decide (k = VSCODE_GIT_COMMAND)); [apply union_Some_l |].
  rewrite (left_id_L None union), lookup_union, lookup_fmap.
  change (o_env (with_cwd (repositoryRoot repo) (repository_options repo o)))
    with (o_env (repository_options repo o)).
  rewrite repository_options_env. simpl env_or_empty.
  rewrite lookup_union.
  destruct (repo_env repo !! k) as [v|].
  - now rewrite !union_Some_l.
  - rewrite (left_id_L None union).
    destruct (env_or_empty (o_env o) !! k) as [v|].
    + apply union_Some_l.
    + apply (left_id_L None union).
Qed.

End RepositoryEnvironment.

Lemma Repository_request_env_witness :
  let repo :=
    {| repo_git := {| gitPath := "git"; git_version := "2.11.0" |};
       repositoryRoot := "/home/dev/project";
       repo_env := {[ "GIT_DIR" := JStr ".git" ]} |} in
  let penv : gmap string string := {[ "HOME" := "/home/dev" ]} in
  let args := configGet_args "local" "user.name" in
  exists (request : spawn_request) (env : gmap string jsval),
    Repository_request repo penv args no_options = inr request /\
    sp_args request = args /\
    o_env (sp_options request) = Some env /\
    forall k : string,
      env !! k
      = if decide (k = LANG) then Some (JStr "en_US.UTF-8")
        else if decide (k = VSCODE_GIT_COMMAND) then Some (first_arg args)
        else match repo_env repo !! k with
             | Some v => Some v
             | None =>
                 match env_or_empty (o_env no_options) !! k with
                 | Some v => Some v
                 | None => JStr <$> penv !! k
                 end
             end.
Proof.
  intros repo penv args.
  exact (Repository_request_env repo penv args no_options eq_refl).
Defined.

Section ConfigArguments.

(** C10. When the value passed to [Repository.config] is falsy (the
    empty string, [undefined], [null], [false], [0], [NaN]) it is left
    out of the argument array: the array, the request handed to
    [cp.spawn] and the outcome of the call are those of a call with no
    value at all. *)
Theorem config_falsy_value_omitted (repo : Repository)
    (penv : gmap string string) (scope key : string) (value : jsval)
    (o : options) :
  truthy value = false ->
  config_args scope key value = config_args scope key JUndefined /\
  Repository_request repo penv (config_args scope key value) o
  = Repository_request repo penv (config_args scope key JUndefined) o /\
  forall (call : nat) (ls0 : list listener) (trace : list event),
    Repository_config repo penv scope key value o call ls0 trace
    = Repository_config repo penv scope key JUndefined o call ls0 trace.
Proof.
  intros Hfalsy.
  assert (Hargs : config_args scope key value
                  = config_args scope key JUndefined).
  { unfold config_args. now rewrite Hfalsy. }
  split; [exact Hargs |]. split.
  - now rewrite Hargs.
  - intros call ls0 trace. unfold Repository_config. now rewrite Hargs.
Qed.

Lemma config_falsy_value_omitted_witness :
  let repo := {| repo_git := {| gitPath := "git"; git_version := "2.11.0" |};
                 repositoryRoot := "/home/dev/project";
                 repo_env := ∅ |} in
  config_args "local" "user.email" (JStr "")
  = config_args "local" "user.email" JUndefined /\
  Repository_request repo ∅ (config_args "local" "user.email" (JStr ""))
                     no_options
  = Repository_request repo ∅ (config_args "local" "user.email" JUndefined)
                       no_options /\
  forall (call : nat) (ls0 : list listener) (trace : list event),
    Repository_config repo ∅ "local" "user.email" (JStr "") no_options
                      call ls0 trace
    = Repository_config repo ∅ "local" "user.email" JUndefined no_options
                        call ls0 trace.
Proof.
  intros repo.
  apply (config_falsy_value_omitted repo ∅ "local" "user.email" (JStr "")
                                    no_options).
  reflexivity.
Defined.

End ConfigArguments.

(** ** The binary locator *)

Section Locator.

Lemma findSpecificGit_fails (h : Host) (path : string) :
  version_query_fails h path = true ->
  exists r, findSpecificGit h path = ([ProbeSpawn path], inl r).
Proof.
  unfold version_query_fails, findSpecificGit, probing.
  destruct (spawn_version h path) as [err|code buffers].
  - intros _. eexists. reflexivity.
  - intros ->. eexists. reflexivity.
Qed.

(** C3, as stated, fails: with a hint whose version query cannot be
    spawned, on a host where the bare name [git] runs, [findGit] goes on
    to the platform search and succeeds. *)
Lemma findGit_failed_hint_falls_back :
  version_query_fails sample_host "/opt/none/git" = true /\
  findGit sample_host (Some "/opt/none/git")
  = ([ProbeSpawn "/opt/none/git"; ProbeSpawn "git"],
     inr {| ig_path := "git"; ig_version := "2.11.0" |}).
Proof. split; reflexivity. Qed.

(** C3, amended. For every supplied hint whose version query fails,
    [findGit] goes on to the discovery strategy of the platform: after
    the one probe of the hint it makes the probes of that strategy, and
    it ends as that strategy ends. *)
Theorem findGit_failed_hint (h : Host) (hint : string) :
  String.eqb hint "" = false ->
  version_query_fails h hint = true ->
  findGit h (Some hint)
  = (ProbeSpawn hint :: fst (platform_search h), snd (platform_search h)).
Proof.
  intros Hhint Hfails. unfold findGit. rewrite Hhint. simpl negb. cbv iota.
  destruct (findSpecificGit_fails h hint Hfails) as [r ->].
  reflexivity.
Qed.

Lemma findGit_failed_hint_witness :
  findGit sample_host (Some "/opt/none/git")
  = (ProbeSpawn "/opt/none/git" :: fst (platform_search sample_host),
     snd (platform_search sample_host)).
Proof.
  apply (findGit_failed_hint sample_host "/opt/none/git"); reflexivity.
Defined.

End Locator.

Section LocatorHint.

(** A hint whose version query succeeds is returned at once: the probe of
    the hint is the only probe made. *)
Theorem findGit_hint_found (h : Host) (hint : string) :
  String.eqb hint "" = false ->
  version_query_fails h hint = false ->
  exists version,
    findGit h (Some hint)
    = ([ProbeSpawn hint], inr {| ig_path := hint; ig_version := version |}).
Proof.
  intros Hhint Hok. unfold findGit. rewrite Hhint. simpl negb. cbv iota.
  unfold version_query_fails in Hok. unfold findSpecificGit.
  destruct (spawn_version h hint) as [err|code out]; [discriminate |].
  rewrite Hok. eexists. reflexivity.
Qed.

Lemma findGit_hint_found_witness :
  exists version,
    findGit sample_host (Some "git")
    = ([ProbeSpawn "git"], inr {| ig_path := "git"; ig_version := version |}).
Proof.
  apply (findGit_hint_found sample_host "git"); reflexivity.
Defined.

(** Without a hint the platform search is all [findGit] does. *)
Theorem findGit_no_hint (h : Host) :
  findGit h None = platform_search h.
Proof.
  unfold findGit, or_else, failed. simpl.
  now destruct (platform_search h).
Qed.

End LocatorHint.

(** ** The join, read off the trace *)

Section JoinOutcome.

Variable call : nat.

Lemma outcome_tracked_step (ls0 : list listener) (seen : list event)
    (ev : event) (st : exec_state) :
  listeners_scoped call ls0 st ->
  data_listeners_attached call st ->
  results_tracked call seen st ->
  outcome_tracked seen st ->
  outcome_tracked (seen ++ [ev]) (resume (emit call ev st)).
Proof.
  intros [Hds Hscoped] Hdata Htracked Hout.
  destruct (emit_frame call ev st) as (_ & _ & Hdone).
  unfold outcome_tracked, results_tracked, data_listeners_attached in *.
  unfold resume. rewrite Hdone.
  destruct (es_done st) as [[e|r]|] eqn:Hd.
  - rewrite Hdone, first_exit_snoc. now rewrite Hout.
  - now rewrite Hdone.
  - rewrite Hds in Hscoped. destruct Hdata as [Hdo Hde].
    pose proof (tracking_emit call ls0 seen ev st Hscoped Hdo Hde Htracked)
      as (Texit & _ & _).
    unfold unsettled.
    destruct (es_exit (emit call ev st)) as [|code|err] eqn:Eexit; simpl.
    + rewrite Hdone. now rewrite Eexit.
    + destruct (es_stdout (emit call ev st)) as [|out|?] eqn:Eout; simpl;
        try (rewrite Hdone; now rewrite Eexit, Eout).
      destruct (es_stderr (emit call ev st)) as [|e|?] eqn:Eerr; simpl;
        try (rewrite Hdone; now rewrite Eexit, Eout, Eerr).
      exact I.
    + destruct (first_exit (seen ++ [ev])) as [[x|c]|];
        [now injection Texit as -> | discriminate
        | destruct Texit; discriminate].
Qed.

Lemma outcome_tracked_run (ls0 : list listener) (trace : list event) :
  forall (seen : list event) (st : exec_state),
    listeners_scoped call ls0 st ->
    data_listeners_attached call st ->
    results_tracked call seen st ->
    outcome_tracked seen st ->
    let st' := foldl (fun s ev => resume (emit call ev s)) st trace in
    results_tracked call (seen ++ trace) st' /\
    outcome_tracked (seen ++ trace) st'.
Proof.
  induction trace as [|ev trace IH]; intros seen st Hs Hd Hr Ho; simpl.
  - now rewrite app_nil_r.
  - replace (seen ++ ev :: trace) with ((seen ++ [ev]) ++ trace)
      by now rewrite <- app_assoc.
    apply IH.
    + now apply listeners_scoped_step.
    + now apply data_listeners_step.
    + now apply (results_tracked_step call ls0).
    + now apply (outcome_tracked_step ls0).
Qed.

(** After any run of a call with fresh closures, the state of the join
    tracks the events emitted. *)
Lemma exec_tracked (ls0 : list listener) (trace : list event) :
  own_listeners call ls0 = [] ->
  results_tracked call trace (exec call ls0 trace) /\
  outcome_tracked trace (exec call ls0 trace).
Proof.
  intros Hfresh.
  assert (Hstart : listeners_scoped call ls0 (exec_start call ls0)).
  { split; [reflexivity |]. now apply tidy_start. }
  assert (Hout0 : outcome_tracked [] (exec_start call ls0)).
  { unfold outcome_tracked, unsettled. rewrite exec_start_done.
    now destruct (exec_start_promises call ls0) as (-> & _). }
  exact (outcome_tracked_run ls0 trace [] _ Hstart
           (data_listeners_start call ls0)
           (results_tracked_start call ls0) Hout0).
Qed.

Lemma exec_outcome_tracked (ls0 : list listener) (trace : list event) :
  results_tracked call trace (exec call ls0 trace) ->
  outcome_tracked trace (exec call ls0 trace) ->
  exec_outcome (exec call ls0 trace) = outcome_of_trace trace.
Proof.
  intros Hr Ho.
  unfold results_tracked in Hr. unfold outcome_tracked in Ho.
  unfold exec_outcome, outcome_of_trace.
  destruct (es_done (exec call ls0 trace)) as [[e|r]|].
  - now rewrite Ho.
  - destruct Hr as (-> & -> & H3 & -> & H5). simpl.
    destruct r as [c o e]. simpl in *. now subst.
  - destruct Hr as (Hexit & Hso & Hse). unfold unsettled in Ho.
    unfold stream_tracked in Hso, Hse.
    destruct (first_exit trace) as [[x|c]|]; [| | reflexivity].
    + rewrite Hexit in Ho. destruct Ho.
    + rewrite Hexit in Ho.
      destruct (stdout_closed trace); [|reflexivity].
      destruct (stderr_closed trace); [|reflexivity].
      rewrite Hso, Hse in Ho. destruct Ho.
Qed.

(** The three-way join is decided by the events alone. [exec] is rejected
    with the child's error exactly when ['error'] is the first of
    ['error'] and ['exit']; it returns exactly when ['exit'] came first and
    both streams have closed, with the exit code and the output delivered
    until the close; in every other case it stays suspended. *)
Theorem exec_outcome_of_trace (ls0 : list listener) (trace : list event) :
  own_listeners call ls0 = [] ->
  exec_outcome (exec call ls0 trace) = outcome_of_trace trace.
Proof.
  intros Hfresh.
  destruct (exec_tracked ls0 trace Hfresh) as [Hr Ho].
  now apply exec_outcome_tracked.
Qed.

End JoinOutcome.

Lemma exec_outcome_of_trace_witness :
  let foreign := {| l_emitter := Child; l_name := "exit";
                    l_fn := External 4; l_once := false |} in
  let trace := [StdoutData "a"; ChildExit (Some 0%Z); StderrClose] in
  exec_outcome (exec 2 [foreign] trace) = outcome_of_trace trace.
Proof.
  intros foreign trace.
  apply (exec_outcome_of_trace 2 [foreign] trace). reflexivity.
Defined.

(** ** White space *)

Section TrimFacts.

Lemma trim_start_starts (s : string) :
  starts_with_space (trim_start s) = false.
Proof.
  induction s as [|c s IH]; [reflexivity |]. simpl.
  destruct (is_space c) eqn:Hc; [exact IH |]. simpl. exact Hc.
Qed.

Lemma trim_start_id (s : string) :
  starts_with_space s = false -> trim_start s = s.
Proof. destruct s as [|c s]; [reflexivity |]. simpl. now intros ->. Qed.

Lemma trim_end_cons (c : ascii) (s : string) :
  is_space c = false -> trim_end (String c s) = String c (trim_end s).
Proof.
  intros Hc. simpl. destruct (trim_end s); [now rewrite Hc | reflexivity].
Qed.

Lemma trim_end_starts (s : string) :
  starts_with_space s = false -> starts_with_space (trim_end s) = false.
Proof.
  destruct s as [|c s]; [reflexivity |].
  intros Hc. change (is_space c = false) in Hc.
  rewrite (trim_end_cons c s Hc). exact Hc.
Qed.

Lemma trim_end_ends (s : string) :
  ends_with_space (trim_end s) = false.
Proof.
  unfold ends_with_space.
  induction s as [|c s IH]; [reflexivity |]. simpl.
  destruct (trim_end s) as [|c' s'] eqn:E.
  - destruct (is_space c) eqn:Hc; [reflexivity |].
    unfold last_char. simpl. now rewrite Hc.
  - rewrite last_char_cons. exact IH.
Qed.

Lemma trim_end_id (s : string) :
  ends_with_space s = false -> trim_end s = s.
Proof.
  unfold ends_with_space.
  induction s as [|c s IH]; [reflexivity |].
  rewrite last_char_cons. simpl trim_end.
  destruct s as [|c' s'].
  - simpl. now intros ->.
  - intros H. rewrite (IH H). reflexivity.
Qed.

(** What [trim] returns has white space at neither end. *)
Lemma trim_trimmed (s : string) :
  starts_with_space (trim s) = false /\ ends_with_space (trim s) = false.
Proof.
  unfold trim. split.
  - apply trim_end_starts, trim_start_starts.
  - apply trim_end_ends.
Qed.

Lemma trim_id (s : string) :
  starts_with_space s = false -> ends_with_space s = false -> trim s = s.
Proof.
  intros Hs He. unfold trim. rewrite (trim_start_id s Hs).
  now apply trim_end_id.
Qed.

Lemma trim_idempotent (s : string) : trim (trim s) = trim s.
Proof. destruct (trim_trimmed s). now apply trim_id. Qed.

Lemma trim_end_snoc_space (s : string) (c : ascii) :
  is_space c = true ->
  trim_end (String.append s (String c EmptyString)) = trim_end s.
Proof.
  intros Hc. induction s as [|a s IH]; simpl.
  - now rewrite Hc.
  - now rewrite IH.
Qed.

(** White space at the end does not change what [trim] returns. *)
Lemma trim_snoc_space (s : string) (c : ascii) :
  is_space c = true ->
  trim (String.append s (String c EmptyString)) = trim s.
Proof.
  intros Hc. unfold trim. induction s as [|a s IH]; simpl.
  - now rewrite Hc.
  - destruct (is_space a) eqn:Ha; [exact IH |].
    change (String a (String.append s (String c EmptyString)))
      with (String.append (String a s) (String c EmptyString)).
    now apply trim_end_snoc_space.
Qed.

End TrimFacts.

(** ** The callers of the join: [getRepositoryRoot], [getStatus] *)

Section RunnerCallers.

Lemma Git__exec_of_trace (git : Git) (penv : gmap string string)
    (args : list jsval) (o : options) (call : nat) (ls0 : list listener)
    (trace : list event) :
  String.eqb (gitPath git) "" = false ->
  streams_ready o = true ->
  own_listeners call ls0 = [] ->
  Git__exec git penv args o call ls0 trace
  = match outcome_of_trace trace with
    | Resolved result => check_result args result
    | Rejected r => Rejected r
    | Pending => Pending
    end.
Proof.
  intros Hgit Hready Hfresh.
  destruct (exec_tracked call ls0 trace Hfresh) as [Hr Ho].
  now rewrite Git__exec_ready, (exec_outcome_tracked call ls0 trace Hr Ho).
Qed.

(** A child ended by a signal counts as a success: its ['exit'] event
    carries the code [null], which [if (result.exitCode)] lets through,
    so the call returns a result with that code and whatever output had
    been delivered, and no [GitError] is made. *)
Theorem Git__exec_signal (git : Git) (penv : gmap string string)
    (args : list jsval) (o : options) (call : nat) (ls0 : list listener)
    (trace : list event) :
  String.eqb (gitPath git) "" = false ->
  streams_ready o = true ->
  own_listeners call ls0 = [] ->
  first_exit trace = Some (inr None) ->
  stdout_closed trace = true ->
  stderr_closed trace = true ->
  Git__exec git penv args o call ls0 trace
  = Resolved {| exitCode := None;
                stdout := join (stdout_chunks trace);
                stderr := join (stderr_chunks trace) |}.
Proof.
  intros Hgit Hready Hfresh Hexit Hso Hse.
  rewrite Git__exec_of_trace by assumption.
  unfold outcome_of_trace. rewrite Hexit, Hso, Hse. reflexivity.
Qed.

(** When the status subcommand exits with code 0 and the texts of the
    chunks its standard output delivered, joined in order, are a sequence
    of well-formed records, [getStatus] returns the entries of the
    records that are not directory markers, in order. *)
Theorem Repository_getStatus_parses (fuel : nat) (repo : Repository)
    (penv : gmap string string) (call : nat) (ls0 : list listener)
    (trace : list event) (rs : list status_record) :
  String.eqb (gitPath (repo_git repo)) "" = false ->
  own_listeners call ls0 = [] ->
  first_exit trace = Some (inr (Some 0%Z)) ->
  stdout_closed trace = true ->
  stderr_closed trace = true ->
  join (stdout_chunks trace) = encode rs ->
  forallb well_formed rs = true ->
  String.length (encode rs) < fuel ->
  Repository_getStatus fuel repo penv call ls0 trace
  = Some (Resolved (map entry_of (List.filter kept rs))).
Proof.
  intros Hgit Hfresh Hexit Hso Hse Hout Hwf Hfuel.
  unfold Repository_getStatus, Repository_exec, Git_exec.
  rewrite Git__exec_of_trace by (assumption || reflexivity).
  unfold outcome_of_trace. rewrite Hexit, Hso, Hse. simpl andb. cbv iota.
  unfold check_result, code_truthy. simpl exitCode. cbv iota beta.
  simpl negb. cbv iota.
  simpl stdout. rewrite Hout.
  now rewrite getStatus_records.
Qed.

(** When the status subcommand exits with a non-zero code, [getStatus] is
    rejected with the [GitError] of the [status] command and its output
    is never parsed, whatever it is. *)
Theorem Repository_getStatus_failed (fuel : nat) (repo : Repository)
    (penv : gmap string string) (call : nat) (ls0 : list listener)
    (trace : list event) (code : Z) :
  String.eqb (gitPath (repo_git repo)) "" = false ->
  own_listeners call ls0 = [] ->
  first_exit trace = Some (inr (Some code)) ->
  (code =? 0)%Z = false ->
  stdout_closed trace = true ->
  stderr_closed trace = true ->
  exists e : GitError,
    Repository_getStatus fuel repo penv call ls0 trace
    = Some (Rejected (RejGitError e)) /\
    ge_gitCommand e = JStr "status" /\
    ge_exitCode e = Some code /\
    ge_stdout e = Some (join (stdout_chunks trace)).
Proof.
  intros Hgit Hfresh Hexit Hcode Hso Hse.
  unfold Repository_getStatus, Repository_exec, Git_exec.
  rewrite Git__exec_of_trace by (assumption || reflexivity).
  unfold outcome_of_trace. rewrite Hexit, Hso, Hse. simpl andb. cbv iota.
  unfold check_result, code_truthy. simpl exitCode. cbv iota beta.
  rewrite Hcode. simpl negb. cbv iota.
  eexists. split; [reflexivity |]. now repeat split.
Qed.

(** [getRepositoryRoot] returns a path with white space at neither end. *)
Theorem Git_getRepositoryRoot_trimmed (git : Git)
    (penv : gmap string string) (path : string) (call : nat)
    (ls0 : list listener) (trace : list event) (root : string) :
  Git_getRepositoryRoot git penv path call ls0 trace = Resolved root ->
  starts_with_space root = false /\ ends_with_space root = false.
Proof.
  unfold Git_getRepositoryRoot.
  destruct (Git_exec git penv path _ no_options call ls0 trace)
    as [result|r|]; try discriminate.
  intros [= <-]. apply trim_trimmed.
Qed.

(** When [git rev-parse --show-toplevel] exits with code 0 after printing
    a path and a line feed, [getRepositoryRoot] returns that path,
    provided the path itself has white space at neither end. *)
Theorem Git_getRepositoryRoot_line (git : Git) (penv : gmap string string)
    (path : string) (call : nat) (ls0 : list listener)
    (trace : list event) (root : string) :
  String.eqb (gitPath git) "" = false ->
  own_listeners call ls0 = [] ->
  first_exit trace = Some (inr (Some 0%Z)) ->
  stdout_closed trace = true ->
  stderr_closed trace = true ->
  join (stdout_chunks trace)
  = String.append root (String "010"%char EmptyString) ->
  starts_with_space root = false ->
  ends_with_space root = false ->
  Git_getRepositoryRoot git penv path call ls0 trace = Resolved root.
Proof.
  intros Hgit Hfresh Hexit Hso Hse Hout Hs He.
  unfold Git_getRepositoryRoot, Git_exec.
  rewrite Git__exec_of_trace by (assumption || reflexivity).
  unfold outcome_of_trace. rewrite Hexit, Hso, Hse. simpl andb. cbv iota.
  unfold check_result, code_truthy. simpl exitCode. cbv iota beta.
  simpl negb. cbv iota.
  simpl stdout. rewrite Hout, trim_snoc_space by reflexivity.
  now rewrite trim_id.
Qed.

End RunnerCallers.

Lemma Git__exec_signal_witness :
  let trace := [StdoutData "Receiving objects:  41%"; ChildExit None;
                StdoutClose; StderrClose] in
  Git__exec {| gitPath := "git"; git_version := "2.11.0" |} ∅
            [JStr "fetch"] no_options 0 [] trace
  = Resolved {| exitCode := None;
                stdout := "Receiving objects:  41%";
                stderr := "" |}.
Proof.
  intros trace.
  exact (Git__exec_signal {| gitPath := "git"; git_version := "2.11.0" |} ∅
           [JStr "fetch"] no_options 0 [] trace
           eq_refl eq_refl eq_refl eq_refl eq_refl eq_refl).
Defined.

Lemma Repository_getStatus_parses_witness :
  let repo := {| repo_git := {| gitPath := "git"; git_version := "2.11.0" |};
                 repositoryRoot := "/home/dev/project";
                 repo_env := ∅ |} in
  let rs := [ {| r_x := "M"%char; r_y := " "%char; r_sep := " "%char;
                 r_rename := None; r_path := "a.ts" |};
              {| r_x := "?"%char; r_y := "?"%char; r_sep := " "%char;
                 r_rename := None; r_path := "lib/" |};
              {| r_x := "?"%char; r_y := "?"%char; r_sep := " "%char;
                 r_rename := None; r_path := "b" |} ] in
  let trace := [StdoutData "M  a."; StdoutData (field "ts");
                ChildExit (Some 0%Z); StdoutData (field "?? lib/");
                StdoutData (field "?? b");
                StdoutClose; StderrClose] in
  Repository_getStatus 32 repo ∅ 0 [] trace
  = Some (Resolved
            [ {| fs_x := "M"; fs_y := " "; fs_path := "a.ts";
                 fs_rename := None |};
              {| fs_x := "?"; fs_y := "?"; fs_path := "b";
                 fs_rename := None |} ]).
Proof.
  intros repo rs trace.
  refine (Repository_getStatus_parses 32 repo ∅ 0 [] trace rs
            eq_refl eq_refl eq_refl eq_refl eq_refl eq_refl eq_refl _).
  vm_compute. lia.
Defined.

Lemma Repository_getStatus_failed_witness :
  let repo := {| repo_git := {| gitPath := "git"; git_version := "2.11.0" |};
                 repositoryRoot := "/tmp";
                 repo_env := ∅ |} in
  let trace := [StdoutData "M  cut"; StderrData "fatal: Not a git repository";
                ChildExit (Some 128%Z); StdoutClose; StderrClose] in
  exists e : GitError,
    Repository_getStatus 0 repo ∅ 0 [] trace
    = Some (Rejected (RejGitError e)) /\
    ge_gitCommand e = JStr "status" /\
    ge_exitCode e = Some 128%Z /\
    ge_stdout e = Some (join (stdout_chunks trace)).
Proof.
  intros repo trace.
  apply (Repository_getStatus_failed 0 repo ∅ 0 [] trace 128); reflexivity.
Defined.

Lemma Git_getRepositoryRoot_trimmed_witness :
  starts_with_space "/home/dev/project" = false /\
  ends_with_space "/home/dev/project" = false.
Proof.
  apply (Git_getRepositoryRoot_trimmed
           {| gitPath := "git"; git_version := "2.11.0" |} ∅
           "/home/dev/project/src" 0 []
           [StdoutData "/home/dev/project"; StdoutData (String "010"%char "");
            StdoutClose; StderrClose; ChildExit (Some 0%Z)]
           "/home/dev/project").
  reflexivity.
Defined.

Lemma Git_getRepositoryRoot_line_witness :
  Git_getRepositoryRoot {| gitPath := "git"; git_version := "2.11.0" |} ∅
    "/home/dev/project/src" 0 []
    [StdoutData "/home/dev/"; StdoutData "project";
     StdoutData (String "010"%char ""); StdoutClose; StderrClose;
     ChildExit (Some 0%Z)]
  = Resolved "/home/dev/project".
Proof.
  apply (Git_getRepositoryRoot_line
           {| gitPath := "git"; git_version := "2.11.0" |} ∅
           "/home/dev/project/src" 0 []
           [StdoutData "/home/dev/"; StdoutData "project";
            StdoutData (String "010"%char ""); StdoutClose; StderrClose;
            ChildExit (Some 0%Z)]
           "/home/dev/project"); reflexivity.
Defined.

(** ** The discovery strategies *)

Section Strategies.

Variable h : Host.

Lemma findSpecificGit_found (path : string) (g : IGit) :
  snd (findSpecificGit h path) = inr g ->
  ig_path g = path /\ version_query_fails h path = false.
Proof.
  unfold findSpecificGit, version_query_fails, probing.
  destruct (spawn_version h path) as [err|code buffers]; simpl;
    [discriminate |].
  destruct (code_truthy code); simpl; [discriminate |].
  intros [= <-]. now split.
Qed.

Lemma findSpecificGit_probes (path : string) :
  fst (findSpecificGit h path) = [ProbeSpawn path].
Proof.
  unfold findSpecificGit, probing.
  destruct (spawn_version h path) as [err|code buffers]; simpl;
    [reflexivity |].
  now destruct (code_truthy code).
Qed.

Lemma findSpecificGit_succeeds (path : string) :
  version_query_fails h path = false ->
  exists g, snd (findSpecificGit h path) = inr g.
Proof.
  unfold findSpecificGit, version_query_fails, probing.
  destruct (spawn_version h path) as [err|code buffers]; [discriminate |].
  intros Hc. rewrite Hc. simpl. eauto.
Qed.

(** A version query that does not fail ended in an ['exit'] event whose
    code is 0 or [null]. *)
Lemma version_query_passed (path : string) :
  version_query_fails h path = false ->
  exists code buffers,
    spawn_version h path = SpawnExit code buffers /\
    (code = Some 0%Z \/ code = None).
Proof.
  unfold version_query_fails.
  destruct (spawn_version h path) as [err|code buffers]; [discriminate |].
  intros Hc. exists code, buffers. split; [reflexivity |].
  destruct code as [n|]; [|now right].
  simpl in Hc. apply negb_false_iff, Z.eqb_eq in Hc. left. now subst.
Qed.

Lemma checked_findSpecificGit (path : string) :
  checked h (findSpecificGit h path).
Proof.
  intros g Hg. destruct (findSpecificGit_found path g Hg) as [-> Hok].
  split; [assumption |]. rewrite findSpecificGit_probes. now left.
Qed.

Lemma checked_failed (r : rejection) : checked h (failed r).
Proof. intros g Hg. discriminate. Qed.

Lemma checked_probing (p : probe) (x : located IGit) :
  checked h x -> checked h (probing p x).
Proof.
  intros Hx g Hg. destruct (Hx g Hg) as [H1 H2].
  split; [assumption |]. now right.
Qed.

Lemma checked_or_else (x y : located IGit) :
  checked h x -> checked h y -> checked h (or_else x y).
Proof.
  intros Hx Hy g. unfold or_else.
  destruct (snd x) as [r|g'] eqn:E; simpl.
  - intros Hg. destruct (Hy g Hg) as [H1 H2].
    split; [assumption |]. apply in_app_iff. now right.
  - intros Hg. apply Hx. congruence.
Qed.

Lemma checked_findSystemGitWin32 (base : option string) :
  checked h (findSystemGitWin32 h base).
Proof.
  unfold findSystemGitWin32. destruct base as [b|]; [|apply checked_failed].
  destruct (String.eqb b "");
    [apply checked_failed | apply checked_findSpecificGit].
Qed.

Lemma checked_findGitHubGitWin32 : checked h (findGitHubGitWin32 h).
Proof.
  unfold findGitHubGitWin32.
  destruct (process_env h !! "LOCALAPPDATA") as [appdata|];
    [|apply checked_failed].
  apply checked_probing.
  destruct (readdir h _) as [err|children]; [apply checked_failed |].
  destruct (List.filter _ children) as [|git rest];
    [apply checked_failed | apply checked_findSpecificGit].
Qed.

Lemma checked_findGitWin32 : checked h (findGitWin32 h).
Proof.
  unfold findGitWin32.
  repeat apply checked_or_else;
    try apply checked_findSystemGitWin32;
    try apply checked_findSpecificGit.
  apply checked_findGitHubGitWin32.
Qed.

(** Outside macOS, whatever [findGit] returns was spawned with
    [--version] during the search, and its child emitted ['exit'] with no
    ['error'] before it, with a code that is 0 or [null]: no path is
    returned that was not run, though one whose child was ended by a
    signal is accepted like one that exited with 0. *)
Theorem findGit_found_checked (hint : option string) (g : IGit) :
  String.eqb (platform h) "darwin" = false ->
  snd (findGit h hint) = inr g ->
  (exists code buffers,
     spawn_version h (ig_path g) = SpawnExit code buffers /\
     (code = Some 0%Z \/ code = None)) /\
  In (ProbeSpawn (ig_path g)) (fst (findGit h hint)).
Proof.
  intros Hp Hg.
  enough (Hc : checked h (findGit h hint)).
  { destruct (Hc g Hg) as [Hok Hin].
    split; [now apply version_query_passed | exact Hin]. }
  clear g Hg.
  unfold findGit. apply checked_or_else.
  - destruct hint as [p|]; [|apply checked_failed].
    destruct (negb (String.eqb p ""));
      [apply checked_findSpecificGit | apply checked_failed].
  - unfold platform_search. rewrite Hp.
    destruct (String.eqb (platform h) "win32");
      [apply checked_findGitWin32 | apply checked_findSpecificGit].
Qed.

Lemma or_else_succeeds_r (x y : located IGit) :
  (exists g, snd y = inr g) -> exists g, snd (or_else x y) = inr g.
Proof.
  intros [g Hg]. unfold or_else.
  destruct (snd x) as [r|g'] eqn:E; simpl; eauto.
Qed.

Lemma or_else_succeeds_l (x y : located IGit) :
  (exists g, snd x = inr g) -> exists g, snd (or_else x y) = inr g.
Proof.
  intros [g Hg]. unfold or_else. rewrite Hg. eauto.
Qed.

Lemma or_else_no_readdir (x y : located IGit) :
  (exists g, snd x = inr g) ->
  existsb is_readdir (fst x) = false ->
  existsb is_readdir (fst (or_else x y)) = false.
Proof. intros [g Hg] Hx. unfold or_else. now rewrite Hg. Qed.

Lemma findSystemGitWin32_no_readdir (base : option string) :
  existsb is_readdir (fst (findSystemGitWin32 h base)) = false.
Proof.
  unfold findSystemGitWin32. destruct base as [b|]; [|reflexivity].
  destruct (String.eqb b ""); [reflexivity |].
  now rewrite findSpecificGit_probes.
Qed.

Lemma or_else_probes_no_readdir (x y : located IGit) :
  existsb is_readdir (fst x) = false ->
  existsb is_readdir (fst y) = false ->
  existsb is_readdir (fst (or_else x y)) = false.
Proof.
  intros Hx Hy. unfold or_else. destruct (snd x); simpl; [|assumption].
  rewrite existsb_app, Hx, Hy. reflexivity.
Qed.

(** Where the bare name [git] answers the version query, [findGit]
    succeeds on every platform but macOS, whatever the hint; on Windows it
    does so without ever listing the per-user GitHub directory. *)
Theorem findGit_bare_git_suffices (hint : option string) :
  String.eqb (platform h) "darwin" = false ->
  version_query_fails h "git" = false ->
  (exists g, snd (findGit h hint) = inr g) /\
  existsb is_readdir (fst (platform_search h)) = false.
Proof.
  intros Hp Hgit.
  pose proof (findSpecificGit_succeeds "git" Hgit) as Hbare.
  assert (Hsearch : (exists g, snd (platform_search h) = inr g) /\
                    existsb is_readdir (fst (platform_search h)) = false).
  { unfold platform_search. rewrite Hp.
    destruct (String.eqb (platform h) "win32").
    - unfold findGitWin32. split.
      + apply or_else_succeeds_l, or_else_succeeds_r, Hbare.
      + apply or_else_no_readdir.
        * apply or_else_succeeds_r, Hbare.
        * repeat apply or_else_probes_no_readdir;
            try apply findSystemGitWin32_no_readdir.
          now rewrite findSpecificGit_probes.
    - split; [exact Hbare |]. now rewrite findSpecificGit_probes. }
  destruct Hsearch as [Hfound Hread]. split; [|exact Hread].
  unfold findGit. now apply or_else_succeeds_r.
Qed.

(** On macOS every failure of the search is the string ['git not found'],
    and no step of the search spawns a binary directly: all its probes go
    through the shell. *)
Theorem findGitDarwin_failure (r : rejection) :
  snd (findGitDarwin h) = inl r ->
  r = RejString "git not found" /\
  existsb is_spawn (fst (findGitDarwin h)) = false.
Proof.
  unfold findGitDarwin, probing, failed, found.
  destruct (shell h "which git") as [c|out]; simpl.
  { intros [= <-]. now split. }
  destruct (negb (String.eqb (trim out) "/usr/bin/git")); simpl.
  - destruct (shell h "git --version") as [c|vout]; simpl;
      [|discriminate].
    intros [= <-]. now split.
  - destruct (shell h "xcode-select -p") as [c|xout]; simpl.
    + destruct c as [|[q|[q'|q'|]|]|q]; simpl;
        try (intros [= <-]; now split);
        (destruct (shell h "git --version") as [c'|vout]; simpl;
         [|discriminate]; intros [= <-]; now split).
    + destruct (shell h "git --version") as [c'|vout]; simpl;
        [|discriminate].
      intros [= <-]. now split.
Qed.

(** The stub of macOS: when [which git] names [/usr/bin/git] and
    [xcode-select -p] fails with code 2, the search fails after these two
    probes, and [git --version], which would open the install dialog, is
    never run. *)
Theorem findGitDarwin_stub (out : string) :
  shell h "which git" = ShellOk out ->
  trim out = "/usr/bin/git" ->
  shell h "xcode-select -p" = ShellErr 2 ->
  findGitDarwin h
  = ([ProbeShell "which git"; ProbeShell "xcode-select -p"],
     inl (RejString "git not found")).
Proof.
  intros Hwhich Hpath Hxcode. unfold findGitDarwin.
  rewrite Hwhich. cbv zeta. rewrite Hpath, Hxcode. reflexivity.
Qed.

(** What a successful search on macOS returns: the path is the trimmed
    answer of [which git], the version the one [git --version] printed
    through the shell, and when the path is [/usr/bin/git] the developer
    tools were found installed. *)
Theorem findGitDarwin_found (g : IGit) :
  snd (findGitDarwin h) = inr g ->
  exists out vout : string,
    shell h "which git" = ShellOk out /\
    ig_path g = trim out /\
    shell h "git --version" = ShellOk vout /\
    ig_version g = parseVersion (trim vout) /\
    (ig_path g = "/usr/bin/git" -> shell h "xcode-select -p" <> ShellErr 2).
Proof.
  unfold findGitDarwin, probing, failed, found.
  destruct (shell h "which git") as [c|out]; simpl; [discriminate |].
  destruct (String.eqb_spec (trim out) "/usr/bin/git") as [Heq|Hne]; simpl.
  - destruct (shell h "xcode-select -p") as [c|xout] eqn:Hx; simpl.
    + destruct c as [|[q|[q'|q'|]|]|q]; simpl; try discriminate;
        (destruct (shell h "git --version") as [c'|vout]; simpl;
         [discriminate |]; intros [= <-]; exists out, vout;
         repeat split; discriminate).
    + destruct (shell h "git --version") as [c'|vout]; simpl;
        [discriminate |].
      intros [= <-]. exists out, vout. repeat split. discriminate.
  - destruct (shell h "git --version") as [c'|vout]; simpl;
      [discriminate |].
    intros [= <-]. exists out, vout. repeat split. simpl. congruence.
Qed.

Lemma last_char_append_r (a v : string) :
  v <> EmptyString -> last_char (String.append a v) = last_char v.
Proof.
  intros Hv. induction a as [|c a IH]; [reflexivity |].
  change (String.append (String c a) v) with (String c (String.append a v)).
  rewrite last_char_cons, IH.
  destruct (String.append a v) eqn:E; [|reflexivity].
  destruct a; [simpl in E; contradiction | discriminate].
Qed.

Lemma parseVersion_label (v : string) :
  parseVersion (String.append "git version " v) = v.
Proof.
  unfold parseVersion.
  assert (Hp : String.prefix "git version "
                 (String.append "git version " v) = true).
  { apply prefix_append. now exists v. }
  rewrite Hp, length_append.
  replace (String.length "git version " + String.length v
           - String.length "git version ") with (String.length v) by lia.
  rewrite <- (append_empty_r v) at 2.
  apply substring_append.
Qed.

(** When the child of the probe emits ['exit'] with the code 0 or [null]
    and the chunks of stdout that had arrived by then, concatenated and
    decoded, read [git version ], a version and a line feed, the binary
    is located with exactly that version, provided the version is not
    empty and does not end in white space. *)
Theorem findSpecificGit_version (path v : string) (code : option Z)
    (buffers : list string) :
  spawn_version h path = SpawnExit code buffers ->
  code = Some 0%Z \/ code = None ->
  toString_utf8 h (Buffer_concat buffers)
  = String.append (String.append "git version " v)
                  (String "010"%char EmptyString) ->
  v <> EmptyString ->
  ends_with_space v = false ->
  findSpecificGit h path
  = ([ProbeSpawn path], inr {| ig_path := path; ig_version := v |}).
Proof.
  intros Hspawn Hcode Hout Hv Hend. unfold findSpecificGit.
  rewrite Hspawn, Hout.
  replace (code_truthy code) with false by now destruct Hcode as [-> | ->].
  unfold probing, found. cbn [fst snd].
  rewrite trim_snoc_space by reflexivity.
  rewrite trim_id.
  - now rewrite parseVersion_label.
  - reflexivity.
  - unfold ends_with_space in *. now rewrite last_char_append_r.
Qed.

(** The version is read when ['exit'] is emitted, not when stdout has
    closed: a child whose ['exit'] comes with the code 0 or [null]
    before any chunk of its output has arrived is located all the same,
    with the empty version, whatever it wrote. *)
Theorem findSpecificGit_exit_before_output (path : string)
    (code : option Z) :
  spawn_version h path = SpawnExit code [] ->
  code = Some 0%Z \/ code = None ->
  toString_utf8 h EmptyString = EmptyString ->
  findSpecificGit h path
  = ([ProbeSpawn path],
     inr {| ig_path := path; ig_version := EmptyString |}).
Proof.
  intros Hspawn Hcode Hempty. unfold findSpecificGit.
  rewrite Hspawn.
  replace (code_truthy code) with false by now destruct Hcode as [-> | ->].
  change (Buffer_concat []) with EmptyString. now rewrite Hempty.
Qed.

End Strategies.

Lemma findGit_found_checked_witness :
  (exists code buffers,
     spawn_version sample_host "git" = SpawnExit code buffers /\
     (code = Some 0%Z \/ code = None)) /\
  In (ProbeSpawn "git") (fst (findGit sample_host (Some "/opt/none/git"))).
Proof.
  apply (findGit_found_checked sample_host (Some "/opt/none/git")
           {| ig_path := "git"; ig_version := "2.11.0" |});
    reflexivity.
Defined.

Lemma findGit_bare_git_suffices_witness :
  (exists g, snd (findGit windows_host None) = inr g) /\
  existsb is_readdir (fst (platform_search windows_host)) = false.
Proof.
  apply (findGit_bare_git_suffices windows_host None); reflexivity.
Defined.

Lemma findGitDarwin_failure_witness :
  RejString "git not found" = RejString "git not found" /\
  existsb is_spawn (fst (findGitDarwin stub_host)) = false.
Proof.
  apply (findGitDarwin_failure stub_host (RejString "git not found")).
  reflexivity.
Defined.

Lemma findGitDarwin_stub_witness :
  findGitDarwin stub_host
  = ([ProbeShell "which git"; ProbeShell "xcode-select -p"],
     inl (RejString "git not found")).
Proof.
  apply (findGitDarwin_stub stub_host
           (String.append "/usr/bin/git" (String "010"%char "")));
    reflexivity.
Defined.

Lemma findGitDarwin_found_witness :
  exists out vout : string,
    shell mac_host "which git" = ShellOk out /\
    "/usr/local/bin/git" = trim out /\
    shell mac_host "git --version" = ShellOk vout /\
    "2.11.0" = parseVersion (trim vout) /\
    ("/usr/local/bin/git" = "/usr/bin/git" ->
     shell mac_host "xcode-select -p" <> ShellErr 2).
Proof.
  apply (findGitDarwin_found mac_host
           {| ig_path := "/usr/local/bin/git"; ig_version := "2.11.0" |}).
  reflexivity.
Defined.

Lemma findSpecificGit_version_witness :
  let h := {| platform := "linux"; process_env := ∅;
              spawn_version := fun _ =>
                SpawnExit None
                  ["git ver"; "sion 2.39.2";
                   String "010"%char EmptyString];
              shell := fun _ => ShellErr 1;
              readdir := fun _ => inl "ENOENT";
              path_join := String.concat "/";
              toString_utf8 := fun bytes => bytes |} in
  findSpecificGit h "/usr/bin/git"
  = ([ProbeSpawn "/usr/bin/git"],
     inr {| ig_path := "/usr/bin/git"; ig_version := "2.39.2" |}).
Proof.
  intros h.
  apply (findSpecificGit_version h "/usr/bin/git" "2.39.2" None
           ["git ver"; "sion 2.39.2"; String "010"%char EmptyString]);
    [reflexivity | now right | reflexivity | discriminate | reflexivity].
Defined.

Lemma findSpecificGit_exit_before_output_witness :
  let h := {| platform := "linux"; process_env := ∅;
              spawn_version := fun _ => SpawnExit (Some 0%Z) [];
              shell := fun _ => ShellErr 1;
              readdir := fun _ => inl "ENOENT";
              path_join := String.concat "/";
              toString_utf8 := fun bytes => bytes |} in
  findSpecificGit h "/usr/bin/git"
  = ([ProbeSpawn "/usr/bin/git"],
     inr {| ig_path := "/usr/bin/git"; ig_version := "" |}).
Proof.
  intros h.
  apply (findSpecificGit_exit_before_output h "/usr/bin/git" (Some 0%Z));
    [reflexivity | now left | reflexivity].
Defined.

(** ** The ignore list *)

Section IgnoreList.

Lemma Set_add_elem (x y : string) (set : list string) :
  y ∈ Set_add x set <-> y ∈ set \/ y = x.
Proof.
  unfold Set_add. destruct (decide (x ∈ set)) as [Hin|Hout].
  - split; [auto |]. intros [H| ->]; assumption.
  - rewrite elem_of_app, list_elem_of_singleton. tauto.
Qed.

Lemma Set_add_NoDup (x : string) (set : list string) :
  NoDup set -> NoDup (Set_add x set).
Proof.
  intros Hnd. unfold Set_add. destruct (decide (x ∈ set)); [assumption |].
  apply NoDup_app. repeat split; [assumption | | apply NoDup_singleton].
  intros y Hy Hx. apply list_elem_of_singleton in Hx. now subst.
Qed.

Lemma Set_fold_elem (l : list string) :
  forall (set : list string) (y : string),
    y ∈ foldl (fun s x => Set_add x s) set l <-> y ∈ set \/ y ∈ l.
Proof.
  induction l as [|x l IH]; intros set y; simpl.
  - rewrite elem_of_nil. tauto.
  - rewrite IH, Set_add_elem, elem_of_cons. tauto.
Qed.

Lemma Set_fold_NoDup (l : list string) :
  forall set : list string,
    NoDup set -> NoDup (foldl (fun s x => Set_add x s) set l).
Proof.
  induction l as [|x l IH]; intros set Hnd; simpl; [assumption |].
  apply IH. now apply Set_add_NoDup.
Qed.

Lemma Set_fold_id (l : list string) :
  forall set : list string,
    NoDup (set ++ l) -> foldl (fun s x => Set_add x s) set l = set ++ l.
Proof.
  induction l as [|x l IH]; intros set Hnd; simpl.
  - now rewrite app_nil_r.
  - assert (Hx : x ∉ set).
    { apply NoDup_app in Hnd as (_ & Hdisj & _).
      intros Hin. apply (Hdisj x Hin). now left. }
    unfold Set_add at 2. destruct (decide (x ∈ set)); [contradiction |].
    rewrite IH; rewrite <- app_assoc; [reflexivity | exact Hnd].
Qed.

Lemma Set_new_elem (l : list string) (y : string) : y ∈ Set_new l <-> y ∈ l.
Proof. unfold Set_new. rewrite Set_fold_elem, elem_of_nil. tauto. Qed.

Lemma Set_new_NoDup (l : list string) : NoDup (Set_new l).
Proof. apply Set_fold_NoDup, NoDup_nil_2. Qed.

Lemma Set_new_id (l : list string) : NoDup l -> Set_new l = l.
Proof. intros H. unfold Set_new. now rewrite Set_fold_id. Qed.

Lemma indexOf_from_elem (x : string) (l : list string) :
  forall i : Z,
    (0 <= i)%Z -> ((indexOf_from x l i >=? 0)%Z = true <-> x ∈ l).
Proof.
  induction l as [|y l IH]; intros i Hi; simpl.
  - rewrite elem_of_nil. split; [discriminate | tauto].
  - rewrite elem_of_cons.
    destruct (String.eqb_spec y x) as [->|Hne].
    + split; [auto |]. intros _. apply Z.geb_le. lia.
    + rewrite IH by lia. split; [auto |]. intros [->|H]; [congruence | exact H].
Qed.

(** [isRootInIgnoreList] is membership in the stored list. *)
Lemma isRootInIgnoreList_elem (root : string) (st : Settings) :
  isRootInIgnoreList root st = true <-> root ∈ getIgnoreRootList st.
Proof. apply indexOf_from_elem. lia. Qed.

Lemma isRootInIgnoreList_ext (root : string) (st st' : Settings) :
  (root ∈ getIgnoreRootList st <-> root ∈ getIgnoreRootList st') ->
  isRootInIgnoreList root st = isRootInIgnoreList root st'.
Proof.
  intros H.
  pose proof (isRootInIgnoreList_elem root st) as H1.
  pose proof (isRootInIgnoreList_elem root st') as H2.
  destruct (isRootInIgnoreList root st), (isRootInIgnoreList root st');
    try reflexivity.
  - symmetry. apply H2, H, H1. reflexivity.
  - apply H1, H, H2. reflexivity.
Qed.

Lemma filter_other_elem (root y : string) (l : list string) :
  y ∈ List.filter (fun r => negb (String.eqb r root)) l
  <-> y ∈ l /\ y <> root.
Proof.
  rewrite !list_elem_of_In, filter_In, negb_true_iff, String.eqb_neq.
  tauto.
Qed.

Lemma getIgnoreRootList_add (root : string) (st : Settings) :
  getIgnoreRootList (addRootToIgnoreList root st)
  = Set_new (getIgnoreRootList st ++ [root]).
Proof. reflexivity. Qed.

Lemma getIgnoreRootList_remove (root : string) (st : Settings) :
  getIgnoreRootList (removeRootFromIgnoreList root st)
  = Set_new (List.filter (fun r => negb (String.eqb r root))
                         (getIgnoreRootList st)).
Proof. reflexivity. Qed.

Lemma isRootInIgnoreList_added (root : string) (st : Settings) :
  isRootInIgnoreList root (addRootToIgnoreList root st) = true.
Proof.
  apply isRootInIgnoreList_elem. rewrite getIgnoreRootList_add.
  rewrite Set_new_elem, elem_of_app, list_elem_of_singleton. auto.
Qed.

Lemma isRootInIgnoreList_removed (root : string) (st : Settings) :
  isRootInIgnoreList root (removeRootFromIgnoreList root st) = false.
Proof.
  apply not_true_is_false. intros H.
  apply isRootInIgnoreList_elem in H.
  rewrite getIgnoreRootList_remove in H.
  apply Set_new_elem, filter_other_elem in H. tauto.
Qed.

(** After a root is added to the ignore list it is found there, and the
    membership of every other root, like the list of configs, is as
    before. *)
Theorem addRootToIgnoreList_lookup (root : string) (st : Settings) :
  isRootInIgnoreList root (addRootToIgnoreList root st) = true /\
  (forall r, r <> root ->
     isRootInIgnoreList r (addRootToIgnoreList root st)
     = isRootInIgnoreList r st) /\
  getConfigList (addRootToIgnoreList root st) = getConfigList st.
Proof.
  split; [|split; [|reflexivity]].
  - apply isRootInIgnoreList_elem. rewrite getIgnoreRootList_add.
    rewrite Set_new_elem, elem_of_app, list_elem_of_singleton. auto.
  - intros r Hr. apply isRootInIgnoreList_ext.
    rewrite getIgnoreRootList_add.
    rewrite Set_new_elem, elem_of_app, list_elem_of_singleton. tauto.
Qed.

(** After a root is removed from the ignore list it is not found there,
    however often it was listed, and the membership of every other root,
    like the list of configs, is as before. *)
Theorem removeRootFromIgnoreList_lookup (root : string) (st : Settings) :
  isRootInIgnoreList root (removeRootFromIgnoreList root st) = false /\
  (forall r, r <> root ->
     isRootInIgnoreList r (removeRootFromIgnoreList root st)
     = isRootInIgnoreList r st) /\
  getConfigList (removeRootFromIgnoreList root st) = getConfigList st.
Proof.
  split; [|split; [|reflexivity]].
  - apply not_true_is_false. intros H.
    apply isRootInIgnoreList_elem in H.
    rewrite getIgnoreRootList_remove in H.
    apply Set_new_elem, filter_other_elem in H. tauto.
  - intros r Hr. apply isRootInIgnoreList_ext.
    rewrite getIgnoreRootList_remove.
    rewrite Set_new_elem, filter_other_elem. tauto.
Qed.

(** Both updates store a list without duplicates, whatever the list
    stored before. *)
Theorem ignore_list_NoDup (root : string) (st : Settings) :
  NoDup (getIgnoreRootList (addRootToIgnoreList root st)) /\
  NoDup (getIgnoreRootList (removeRootFromIgnoreList root st)).
Proof. split; apply Set_new_NoDup. Qed.

Lemma filter_other_id (root : string) (l : list string) :
  root ∉ l -> List.filter (fun r => negb (String.eqb r root)) l = l.
Proof.
  induction l as [|y l IH]; intros Hout; [reflexivity |]. simpl.
  apply not_elem_of_cons in Hout as [Hne Hout].
  destruct (String.eqb_spec y root) as [->|_]; [contradiction |].
  simpl. now rewrite IH.
Qed.

Lemma Set_new_snoc (l : list string) (x : string) :
  Set_new (l ++ [x]) = Set_add x (Set_new l).
Proof. unfold Set_new. now rewrite foldl_app. Qed.

(** On a stored list without duplicates: adding a root that is listed
    changes nothing, adding one that is not listed appends it, and
    removing it again gives back the list as it was. *)
Theorem ignore_list_round_trip (root : string) (st : Settings) :
  NoDup (getIgnoreRootList st) ->
  (root ∈ getIgnoreRootList st ->
   getIgnoreRootList (addRootToIgnoreList root st) = getIgnoreRootList st) /\
  (root ∉ getIgnoreRootList st ->
   getIgnoreRootList (addRootToIgnoreList root st)
   = getIgnoreRootList st ++ [root] /\
   getIgnoreRootList (removeRootFromIgnoreList root
                        (addRootToIgnoreList root st))
   = getIgnoreRootList st).
Proof.
  intros Hnd.
  assert (Hadd : getIgnoreRootList (addRootToIgnoreList root st)
                 = Set_add root (getIgnoreRootList st)).
  { rewrite getIgnoreRootList_add, Set_new_snoc. now rewrite Set_new_id. }
  split.
  - intros Hin. rewrite Hadd. unfold Set_add.
    destruct (decide (root ∈ getIgnoreRootList st));
      [reflexivity | contradiction].
  - intros Hout.
    assert (Hadd' : getIgnoreRootList (addRootToIgnoreList root st)
                    = getIgnoreRootList st ++ [root]).
    { rewrite Hadd. unfold Set_add.
      destruct (decide (root ∈ getIgnoreRootList st));
        [contradiction | reflexivity]. }
    split; [exact Hadd' |].
    rewrite getIgnoreRootList_remove, Hadd'.
    rewrite List.filter_app, (filter_other_id root _ Hout).
    simpl List.filter. rewrite String.eqb_refl. simpl negb. cbv iota.
    rewrite app_nil_r. now apply Set_new_id.
Qed.

End IgnoreList.

Lemma ignore_list_round_trip_witness :
  let st := {| configList := [];
               ignoreRootList := Some ["/home/dev/a"; "/home/dev/b"] |} in
  ("/home/dev/c" ∈ getIgnoreRootList st ->
   getIgnoreRootList (addRootToIgnoreList "/home/dev/c" st)
   = getIgnoreRootList st) /\
  ("/home/dev/c" ∉ getIgnoreRootList st ->
   getIgnoreRootList (addRootToIgnoreList "/home/dev/c" st)
   = getIgnoreRootList st ++ ["/home/dev/c"] /\
   getIgnoreRootList (removeRootFromIgnoreList "/home/dev/c"
                        (addRootToIgnoreList "/home/dev/c" st))
   = getIgnoreRootList st).
Proof.
  intros st. apply (ignore_list_round_trip "/home/dev/c" st).
  simpl. compute_done.
Defined.

(** ** Remembering and choosing a config *)

Section ConfigList.

Lemma key_split (e1 e2 n1 n2 : string) :
  no_space e1 = true ->
  no_space e2 = true ->
  String.append e1 (String " "%char n1) = String.append e2 (String " "%char n2) ->
  e1 = e2 /\ n1 = n2.
Proof.
  revert e2. induction e1 as [|c e1 IH]; intros [|c' e2] H1 H2 H; simpl in *.
  - now injection H.
  - injection H as Hc _. subst c'. discriminate.
  - injection H as Hc _. subst c. discriminate.
  - apply andb_true_iff in H1 as [_ H1]. apply andb_true_iff in H2 as [_ H2].
    injection H as -> H. destruct (IH e2 H1 H2 H) as [-> ->]. now split.
Qed.

(** Two configs whose emails contain no space have the same key only when
    they are the same config. *)
Theorem generateGitConfigKey_inj (c1 c2 : GitConfig) :
  no_space (user_email c1) = true ->
  no_space (user_email c2) = true ->
  generateGitConfigKey c1 = generateGitConfigKey c2 ->
  c1 = c2.
Proof.
  intros H1 H2 H. unfold generateGitConfigKey in H.
  destruct c1 as [n1 e1], c2 as [n2 e2]. simpl in *.
  destruct (key_split e1 e2 n1 n2 H1 H2 H) as [-> ->]. reflexivity.
Qed.

Lemma find_key_none (k : string) (l : list GitConfig) :
  List.find (fun c => String.eqb (generateGitConfigKey c) k) l = None ->
  k ∉ map generateGitConfigKey l.
Proof.
  induction l as [|c l IH]; simpl; [intros _; apply not_elem_of_nil |].
  destruct (String.eqb_spec (generateGitConfigKey c) k) as [Heq|Hne];
    [discriminate |].
  intros H. apply not_elem_of_cons. split; [congruence | now apply IH].
Qed.

Lemma find_key_some (k : string) (l : list GitConfig) (c : GitConfig) :
  List.find (fun c => String.eqb (generateGitConfigKey c) k) l = Some c ->
  k ∈ map generateGitConfigKey l.
Proof.
  intros H. apply find_some in H as [Hin Hk].
  apply String.eqb_eq in Hk. subst k.
  apply list_elem_of_In, in_map, Hin.
Qed.

(** Remembering a config leaves the list with an entry of its key: the
    list is unchanged when the key is there already, else the config is
    appended; the keys stay distinct if they were, and the ignore list is
    not touched. *)
Theorem remember_config_keys (c : GitConfig) (st : Settings) :
  generateGitConfigKey c
    ∈ map generateGitConfigKey (getConfigList (remember_config c st)) /\
  (getConfigList (remember_config c st) = getConfigList st \/
   getConfigList (remember_config c st) = getConfigList st ++ [c]) /\
  (NoDup (map generateGitConfigKey (getConfigList st)) ->
   NoDup (map generateGitConfigKey (getConfigList (remember_config c st)))) /\
  getIgnoreRootList (remember_config c st) = getIgnoreRootList st.
Proof.
  unfold remember_config. cbv zeta.
  destruct (List.find _ (getConfigList st)) as [c'|] eqn:E.
  - repeat split; auto. now apply (find_key_some _ _ c').
  - apply find_key_none in E. unfold getConfigList at 1 3 5. simpl.
    fold (getConfigList st). rewrite map_app. simpl. repeat split.
    + apply elem_of_app. right. now left.
    + now right.
    + intros Hnd. apply NoDup_app.
      repeat split; [assumption | | apply NoDup_singleton].
      intros k Hk Hk'. apply list_elem_of_singleton in Hk'. now subst.
Qed.

Lemma Map_set_keys (k : string) (v : GitConfig)
    (m : list (string * GitConfig)) :
  map fst (Map_set k v m) = Set_add k (map fst m).
Proof.
  unfold Set_add. induction m as [|[k' v'] m IH]; simpl.
  - destruct (decide (k ∈ [])) as [H|_]; [|reflexivity].
    now apply elem_of_nil in H.
  - destruct (String.eqb_spec k' k) as [->|Hne]; simpl.
    + destruct (decide (k ∈ k :: map fst m)) as [_|H]; [reflexivity |].
      exfalso. apply H. now left.
    + rewrite IH.
      destruct (decide (k ∈ map fst m)) as [Hin|Hout];
        destruct (decide (k ∈ k' :: map fst m)) as [Hin'|Hout'];
        try reflexivity.
      * exfalso. apply Hout'. now right.
      * exfalso. apply elem_of_cons in Hin' as [->|H]; auto.
Qed.

Lemma Map_fold_keys (l : list GitConfig) :
  forall m : list (string * GitConfig),
    map fst (foldl (fun map c => Map_set (generateGitConfigKey c) c map) m l)
    = foldl (fun s x => Set_add x s) (map fst m)
            (map generateGitConfigKey l).
Proof.
  induction l as [|c l IH]; intros m; simpl; [reflexivity |].
  now rewrite IH, Map_set_keys.
Qed.

(** The items shown are the keys of the stored configs and of the two
    fixed entries, each once, in the order of their first occurrence. *)
Lemma pick_items_Set (configList : list GitConfig) :
  pick_items configList
  = Set_new (map generateGitConfigKey
               (configList ++ [CUSTOM_GIT_CONFIG;
                               IGNORE_CURRENT_ROOT_GIT_CONFIG])).
Proof. unfold pick_items, pick_map. now rewrite Map_fold_keys. Qed.

Lemma Map_get_set (k k' : string) (v : GitConfig)
    (m : list (string * GitConfig)) :
  Map_get k (Map_set k' v m)
  = if String.eqb k' k then Some v else Map_get k m.
Proof.
  induction m as [|[k'' v''] m IH]; simpl.
  - reflexivity.
  - destruct (String.eqb_spec k'' k') as [->|Hne]; simpl.
    + now destruct (String.eqb k' k).
    + rewrite IH. destruct (String.eqb_spec k'' k) as [->|Hne'];
        [|reflexivity].
      destruct (String.eqb_spec k' k) as [->|_]; [congruence | reflexivity].
Qed.

Lemma Map_fold_get (k : string) (c : GitConfig) (l : list GitConfig) :
  forall m : list (string * GitConfig),
    Map_get k (foldl (fun map c => Map_set (generateGitConfigKey c) c map)
                     m l) = Some c ->
    (generateGitConfigKey c = k /\ In c l) \/ Map_get k m = Some c.
Proof.
  induction l as [|x l IH]; intros m; simpl; [auto |].
  intros H. apply IH in H as [[Hk Hin]|H]; [left; auto |].
  rewrite Map_get_set in H.
  destruct (String.eqb_spec (generateGitConfigKey x) k) as [Hx|_];
    [|right; exact H].
  injection H as <-. left. auto.
Qed.

Lemma Map_get_key (k : string) (m : list (string * GitConfig)) :
  k ∈ map fst m -> exists c, Map_get k m = Some c.
Proof.
  induction m as [|[k' v'] m IH]; simpl; [intros H; now apply elem_of_nil in H |].
  intros H. destruct (String.eqb_spec k' k) as [->|Hne]; [eauto |].
  apply elem_of_cons in H as [->|H]; [congruence | auto].
Qed.

(** Every item of the quick pick other than the two fixed entries selects
    a stored config of exactly that key. *)
Theorem choose_stored_config (configList : list GitConfig) (pick : string) :
  pick ∈ pick_items configList ->
  pick <> generateGitConfigKey CUSTOM_GIT_CONFIG ->
  pick <> generateGitConfigKey IGNORE_CURRENT_ROOT_GIT_CONFIG ->
  configList <> [] ->
  exists c : GitConfig,
    In c configList /\
    generateGitConfigKey c = pick /\
    choose configList (Some pick) = SetGitConfig (Some c).
Proof.
  intros Hitem Hcustom Hignore Hne.
  destruct (Map_get_key pick (pick_map configList) Hitem) as [c Hc].
  pose proof Hc as Hc'. unfold pick_map in Hc'.
  apply Map_fold_get in Hc' as [[Hk Hin]|Hnone]; [|discriminate].
  exists c. apply in_app_iff in Hin as [Hin|Hin].
  - split; [assumption |]. split; [assumption |].
    unfold choose. destruct configList as [|c0 rest]; [contradiction |].
    apply String.eqb_neq in Hcustom, Hignore.
    now rewrite Hcustom, Hignore, Hc.
  - exfalso. destruct Hin as [<-|[<-|[]]]; congruence.
Qed.

(** The quick pick shows every key once, the key of every stored config
    among them, and always the two fixed entries. *)
Theorem pick_items_complete (configList : list GitConfig) :
  NoDup (pick_items configList) /\
  (forall c, In c configList ->
             generateGitConfigKey c ∈ pick_items configList) /\
  generateGitConfigKey CUSTOM_GIT_CONFIG ∈ pick_items configList /\
  generateGitConfigKey IGNORE_CURRENT_ROOT_GIT_CONFIG
    ∈ pick_items configList.
Proof.
  rewrite pick_items_Set. split; [apply Set_new_NoDup |].
  repeat split; [intros c Hc | |]; apply Set_new_elem, list_elem_of_In,
    in_map, in_app_iff; [now left | right; simpl; tauto ..].
Qed.

End ConfigList.

Lemma generateGitConfigKey_inj_witness :
  {| user_name := "Tom Marvolo Riddle"; user_email := "Marvolo@Riddle.Tom" |}
  = {| user_name := "Tom Marvolo Riddle"; user_email := "Marvolo@Riddle.Tom" |}.
Proof.
  apply (generateGitConfigKey_inj
           {| user_name := "Tom Marvolo Riddle";
              user_email := "Marvolo@Riddle.Tom" |}
           {| user_name := "Tom Marvolo Riddle";
              user_email := "Marvolo@Riddle.Tom" |}); reflexivity.
Defined.

Lemma choose_stored_config_witness :
  let work := {| user_name := "Tom Riddle"; user_email := "tom@work.example" |} in
  let home := {| user_name := "Tom"; user_email := "tom@home.example" |} in
  exists c : GitConfig,
    In c [work; home; work] /\
    generateGitConfigKey c = "tom@home.example Tom" /\
    choose [work; home; work] (Some "tom@home.example Tom")
    = SetGitConfig (Some c).
Proof.
  intros work home.
  apply (choose_stored_config [work; home; work] "tom@home.example Tom");
    [compute_done | discriminate | discriminate | discriminate].
Defined.

(** ** The polling check *)

Section PollingCheck.

(** A root put on the ignore list is skipped by the check from then on,
    whatever its git config is; a root taken off the list is checked
    again, and prompted for when it has no config. *)
Theorem ignored_root_is_skipped (root : string) (st : Settings)
    (gitConfig : option GitConfig) :
  checkForLocalConfig (addRootToIgnoreList root st) (Some root) gitConfig
  = RootIgnored /\
  (String.eqb root "" = false ->
   checkForLocalConfig (removeRootFromIgnoreList root st) (Some root) None
   = PromptForConfig).
Proof.
  pose proof (isRootInIgnoreList_added root st) as Hadd.
  pose proof (isRootInIgnoreList_removed root st) as Hrm.
  unfold checkForLocalConfig. rewrite Hadd, Hrm. split; [reflexivity |].
  now intros ->.
Qed.

(** When the read of [user.email] exits with a non-zero code, as it does
    for a key that is not set, [getGitConfig] returns [null] whatever the
    read of [user.name] would give. *)
Theorem getGitConfig_unset (repo : Repository) (penv : gmap string string)
    (showMessages : bool) (call1 : nat) (ls1 : list listener)
    (trace1 : list event) (code : Z) :
  String.eqb (gitPath (repo_git repo)) "" = false ->
  own_listeners call1 ls1 = [] ->
  first_exit trace1 = Some (inr (Some code)) ->
  (code =? 0)%Z = false ->
  stdout_closed trace1 = true ->
  stderr_closed trace1 = true ->
  forall (call2 : nat) (ls2 : list listener) (trace2 : list event),
  exists shown,
    getGitConfig repo penv showMessages call1 ls1 trace1 call2 ls2 trace2
    = Resolved (None, shown).
Proof.
  intros Hgit Hfresh Hexit Hcode Hso Hse call2 ls2 trace2.
  unfold getGitConfig, Repository_configGet at 1, Repository_exec, Git_exec.
  rewrite Git__exec_of_trace by (assumption || reflexivity).
  unfold outcome_of_trace. rewrite Hexit, Hso, Hse. simpl andb. cbv iota.
  unfold check_result, code_truthy. simpl exitCode. cbv iota beta.
  rewrite Hcode. simpl negb. cbv iota.
  eexists. reflexivity.
Qed.

(** The config [getGitConfig] returns has values with white space at
    neither end. *)
Theorem getGitConfig_trimmed (repo : Repository) (penv : gmap string string)
    (showMessages : bool) (call1 : nat) (ls1 : list listener)
    (trace1 : list event) (call2 : nat) (ls2 : list listener)
    (trace2 : list event) (c : GitConfig) (shown : list ui_message) :
  getGitConfig repo penv showMessages call1 ls1 trace1 call2 ls2 trace2
  = Resolved (Some c, shown) ->
  starts_with_space (user_email c) = false /\
  ends_with_space (user_email c) = false /\
  starts_with_space (user_name c) = false /\
  ends_with_space (user_name c) = false.
Proof.
  unfold getGitConfig. cbv zeta.
  destruct (Repository_configGet repo penv "local" "user.email" _ _ _ _)
    as [email|r|]; try discriminate.
  destruct (Repository_configGet repo penv "local" "user.name" _ _ _ _)
    as [name|r|]; try discriminate.
  intros [= <- _]. simpl.
  destruct (trim_trimmed email), (trim_trimmed name). auto.
Qed.

(** The warning [findRepositoryRoot] shows when [git rev-parse] exits with
    a non-zero code ends in the kind the stderr text is classified as,
    and in the word [undefined] when it is classified as none. *)
Theorem findRepositoryRoot_warning (git : Git) (penv : gmap string string)
    (path : string) (call : nat) (ls0 : list listener)
    (trace : list event) (code : Z) :
  String.eqb (gitPath git) "" = false ->
  own_listeners call ls0 = [] ->
  first_exit trace = Some (inr (Some code)) ->
  (code =? 0)%Z = false ->
  stdout_closed trace = true ->
  stderr_closed trace = true ->
  findRepositoryRoot true
    (Git_getRepositoryRoot git penv path call ls0 trace)
  = Resolved
      (None,
       [ShowWarning
          (String.append
             "git-autoconfig: Failed to get git repository root."
             (match classify (join (stderr_chunks trace)) with
              | Some k => code_name k
              | None => "undefined"
              end))]).
Proof.
  intros Hgit Hfresh Hexit Hcode Hso Hse.
  unfold Git_getRepositoryRoot, Git_exec.
  rewrite Git__exec_of_trace by (assumption || reflexivity).
  unfold outcome_of_trace. rewrite Hexit, Hso, Hse. simpl andb. cbv iota.
  unfold check_result, code_truthy. simpl exitCode. cbv iota beta.
  rewrite Hcode. simpl negb. cbv iota.
  reflexivity.
Qed.

End PollingCheck.

Lemma ignored_root_is_skipped_witness :
  let st := {| configList := []; ignoreRootList := None |} in
  checkForLocalConfig (addRootToIgnoreList "/home/dev/a" st)
                      (Some "/home/dev/a") None
  = RootIgnored /\
  (String.eqb "/home/dev/a" "" = false ->
   checkForLocalConfig (removeRootFromIgnoreList "/home/dev/a" st)
                       (Some "/home/dev/a") None
   = PromptForConfig).
Proof.
  intros st. exact (ignored_root_is_skipped "/home/dev/a" st None).
Defined.

Lemma getGitConfig_unset_witness :
  let repo := {| repo_git := {| gitPath := "git"; git_version := "2.11.0" |};
                 repositoryRoot := "/home/dev/project";
                 repo_env := ∅ |} in
  let trace1 := [ChildExit (Some 1%Z); StdoutClose; StderrClose] in
  let trace2 := [StdoutData "Tom Riddle"; ChildExit (Some 0%Z);
                 StdoutClose; StderrClose] in
  exists shown,
    getGitConfig repo ∅ false 0 [] trace1 1 [] trace2
    = Resolved (None, shown).
Proof.
  intros repo trace1 trace2.
  apply (getGitConfig_unset repo ∅ false 0 [] trace1 1); reflexivity.
Defined.

Lemma getGitConfig_trimmed_witness :
  let c := {| user_name := "Tom Riddle"; user_email := "tom@work.example" |} in
  starts_with_space (user_email c) = false /\
  ends_with_space (user_email c) = false /\
  starts_with_space (user_name c) = false /\
  ends_with_space (user_name c) = false.
Proof.
  intros c.
  apply (getGitConfig_trimmed
           {| repo_git := {| gitPath := "git"; git_version := "2.11.0" |};
              repositoryRoot := "/home/dev/project"; repo_env := ∅ |}
           ∅ false
           0 [] [StdoutData (String.append "tom@work.example"
                                           (String "010"%char ""));
                 ChildExit (Some 0%Z); StdoutClose; StderrClose]
           1 [] [StdoutData (String.append "Tom Riddle"
                                           (String "010"%char ""));
                 ChildExit (Some 0%Z); StdoutClose; StderrClose]
           c []).
  reflexivity.
Defined.

Lemma findRepositoryRoot_warning_witness :
  let trace :=
    [StderrData
       "fatal: not a git repository (or any of the parent directories): .git";
     ChildExit (Some 128%Z); StdoutClose; StderrClose] in
  findRepositoryRoot true
    (Git_getRepositoryRoot {| gitPath := "git"; git_version := "2.11.0" |}
                           ∅ "/tmp" 0 [] trace)
  = Resolved
      (None,
       [ShowWarning
          "git-autoconfig: Failed to get git repository root.undefined"]).
Proof.
  intros trace.
  exact (findRepositoryRoot_warning
           {| gitPath := "git"; git_version := "2.11.0" |} ∅ "/tmp" 0 []
           trace 128 eq_refl eq_refl eq_refl eq_refl eq_refl eq_refl).
Defined.

(** ** The error object *)

Section ErrorObject.

(** The message of a [GitError] is never empty: it is the message of the
    wrapped error when that is not empty, else the message given when
    that is not empty, else ['Git error']. *)
Theorem GitError_message (data : IGitErrorData) :
  String.eqb (ge_message (GitError_new data)) "" = false /\
  ge_message (GitError_new data)
  = match d_error data, d_message data with
    | Some (String c m), _ => String c m
    | _, Some (String c m) => String c m
    | _, _ => "Git error"
    end.
Proof.
  unfold GitError_new, str_or. simpl.
  destruct (d_error data) as [[|c m]|], (d_message data) as [[|c' m']|];
    simpl; split; reflexivity.
Qed.

End ErrorObject.
